(** * Hypermodels (enn/networks/hypermodels.py)

    A shallow embedding of the hypermodel constructions of the [enn]
    library and of the parts of numpy/jax/haiku they are written against.

    Arrays are tensors over the real numbers: a shape and the row-major list
    of the elements.  Floating-point rounding, overflow, nan and inf are not
    part of the model: [jnp.exp], [jnp.log], [jnp.sqrt] and the arithmetic
    operators are read as the real functions they approximate, so the
    statements of this file are about shapes, exceptions, parameters and
    which operations produce which entries, not about rounded values.
    Arrays carry no dtype; where the code reads one
    ([DiagonalLinear.__call__]) it is passed next to the array.

    Python exceptions are values of [result]; the haiku parameter plumbing
    ([hk.get_parameter], module naming, [hk.next_rng_key], [hk.transform]) is
    a state-and-error monad [Hk] over a frame. *)

From Stdlib Require Import Reals Lra Lia ZArith.
From stdpp Require Import base option list list_monad sorting gmap strings pretty.

(** ** Exceptions *)

Inductive exn : Set :=
  | ValueError | TypeError | IndexError | AssertionError | ZeroDivisionError.

Inductive result (A : Type) : Type :=
  | Ok (a : A)
  | Raise (e : exn).
Arguments Ok {A} a.
Arguments Raise {A} e.

#[global] Instance result_ret : MRet result := λ A a, Ok a.
#[global] Instance result_bind : MBind result := λ A B f m,
  match m with Ok a => f a | Raise e => Raise e end.
#[global] Instance result_fmap : FMap result := λ A B f m,
  match m with Ok a => Ok (f a) | Raise e => Raise e end.

Definition is_ok {A} (m : result A) : Prop :=
  match m with Ok _ => True | Raise _ => False end.

(** ** Tensors *)

Record tensor : Type := Tensor { shape : list nat; data : list R }.

(** Number of elements of an array of shape [s]. *)
Definition numel (s : list nat) : nat := foldr Nat.mul 1 s.

(** The arrays of the program all satisfy [wf]. *)
Definition wf (t : tensor) : Prop := length (data t) = numel (shape t).

Definition scalar (c : R) : tensor := Tensor [] [c].

Definition sum_R (l : list R) : R := foldr Rplus 0%R l.
Definition sum_nat (l : list nat) : nat := foldr Nat.add 0 l.

(** [l[i]] for an index known to be in range. *)
Definition at_ (l : list R) (i : nat) : R := nth i l 0%R.

(** [jnp.zeros(shape)] *)
Definition jnp_zeros (s : list nat) : tensor := Tensor s (replicate (numel s) 0%R).

(** [jnp.ravel] *)
Definition ravel (t : tensor) : tensor := Tensor [numel (shape t)] (data t).

(** [len(a)]: the first dimension.  Only used on ravelled arrays, which
    have rank one. *)
Definition len (t : tensor) : nat := hd 0 (shape t).

(** [jnp.reshape(a, newshape)] with a concrete shape. *)
Definition reshape (t : tensor) (s : list nat) : result tensor :=
  if decide (numel (shape t) = numel s) then Ok (Tensor s (data t))
  else Raise TypeError.

(** *** Broadcasting

    Shapes are aligned at the last axis; two dimensions are compatible when
    they are equal or one of them is 1. *)

Definition bdim (a b : nat) : option nat :=
  if decide (a = b) then Some a
  else if decide (a = 1) then Some b
  else if decide (b = 1) then Some a
  else None.

Fixpoint bshape_rev (r1 r2 : list nat) : option (list nat) :=
  match r1, r2 with
  | [], r => Some r
  | r, [] => Some r
  | a :: r1', b :: r2' =>
      d ← bdim a b; r ← bshape_rev r1' r2'; Some (d :: r)
  end.

Definition broadcast_shapes (s1 s2 : list nat) : option (list nat) :=
  reverse <$> bshape_rev (reverse s1) (reverse s2).

(** Flat position, in an operand of (reversed) shape [rs], of the element
    that is broadcast to flat position [j] of the (reversed) result shape
    [ro]. *)
Fixpoint bidx_rev (ro rs : list nat) (j : nat) : nat :=
  match ro, rs with
  | o :: ro', d :: rs' =>
      (if decide (d = 1) then 0 else j `mod` o) + d * bidx_rev ro' rs' (j `div` o)
  | _, _ => 0
  end.

Definition bidx (so s : list nat) (j : nat) : nat :=
  bidx_rev (reverse so) (reverse s) j.

(** An elementwise binary operator of jnp. *)
Definition bin_op (f : R → R → R) (a b : tensor) : result tensor :=
  match broadcast_shapes (shape a) (shape b) with
  | None => Raise ValueError
  | Some so =>
      Ok (Tensor so
            ((λ j, f (at_ (data a) (bidx so (shape a) j))
                     (at_ (data b) (bidx so (shape b) j)))
               <$> seq 0 (numel so)))
  end.

(** An elementwise unary function of jnp. *)
Definition un_op (f : R → R) (a : tensor) : tensor :=
  Tensor (shape a) (f <$> data a).

Definition jnp_add := bin_op Rplus.
Definition jnp_mul := bin_op Rmult.
Definition jnp_div := bin_op Rdiv.
Definition jnp_exp := un_op exp.
Definition jnp_log := un_op ln.
Definition jnp_sqrt := un_op sqrt.
Definition relu := un_op (λ x, Rmax x 0).

(** *** Slicing and splitting along the first axis *)

(** [a[lo:hi]] for non-negative bounds (python clamps them to the array). *)
Definition slice0 (t : tensor) (lo hi : nat) : tensor :=
  match shape t with
  | [] => t
  | d :: rest =>
      let n := (hi `min` d) - lo in
      Tensor (n :: rest) (take (n * numel rest) (drop (lo * numel rest) (data t)))
  end.

(** [np.cumsum] *)
Fixpoint cumsum_from (acc : nat) (l : list nat) : list nat :=
  match l with
  | [] => []
  | x :: l' => (acc + x) :: cumsum_from (acc + x) l'
  end.
Definition cumsum : list nat → list nat := cumsum_from 0.

(** [jnp.split(a, indices)]: the pieces [a[0:i1]], [a[i1:i2]], ..., [a[ik:]].
    The length of the first axis is read first: IndexError for a 0-d
    array. *)
Definition jnp_split (t : tensor) (indices : list nat) : result (list tensor) :=
  match shape t with
  | [] => Raise IndexError
  | d :: _ =>
      let pts := 0 :: indices ++ [d] in
      Ok (zip_with (slice0 t) pts (tail pts))
  end.

(** [jnp.array_split(a, n)]: [n] pieces, the first [d mod n] of them one
    element longer than the others.  The length of the first axis is read
    first (IndexError for a 0-d array) and then divided by the number of
    sections (ZeroDivisionError when there is none). *)
Definition section_sizes (d n : nat) : list nat :=
  replicate (d `mod` n) (S (d `div` n)) ++ replicate (n - d `mod` n) (d `div` n).

Definition array_split (t : tensor) (n : nat) : result (list tensor) :=
  match shape t with
  | [] => Raise IndexError
  | d :: _ =>
      if decide (n = 0) then Raise ZeroDivisionError
      else
        let pts := 0 :: cumsum (section_sizes d n) in
        Ok (zip_with (slice0 t) pts (tail pts))
  end.

(** [jnp.arange(n)] *)
Definition arange (n : nat) : tensor := Tensor [n] (INR <$> seq 0 n).

(** *** Contractions *)

(** [jnp.dot(x, w)] for [x] of shape [(..., d)] and [w] of shape [(d, n)]. *)
Definition dot_row (x w : list R) (d n r j : nat) : R :=
  sum_R ((λ i, at_ x (r * d + i) * at_ w (i * n + j))%R <$> seq 0 d).

Definition jnp_dot (x w : tensor) : result tensor :=
  match reverse (shape x), shape w with
  | d :: lead, [d'; n] =>
      if decide (d = d') then
        Ok (Tensor (reverse lead ++ [n])
              (r ← seq 0 (numel lead);
               (λ j, dot_row (data x) (data w) d n r j) <$> seq 0 n))
      else Raise TypeError
  | _, _ => Raise TypeError
  end.

(** [jnp.linalg.norm(a, axis=-1, keepdims=True)] *)
Definition norm_last (a : tensor) : result tensor :=
  match reverse (shape a) with
  | [] => Raise ValueError
  | k :: lead =>
      Ok (Tensor (reverse lead ++ [1])
            ((λ r, sqrt (sum_R ((λ i, Rsqr (at_ (data a) (r * k + i))) <$> seq 0 k)))
               <$> seq 0 (numel lead)))
  end.

(** [jnp.einsum]: an axis that two operands share under one label has the
    same length in both, or length 1 in one of them, which is then
    broadcast along the other; any other pair of lengths is refused.
    [bsel k c] is the position read, in an axis of length [k], for the
    position [c] of the common length. *)
Definition bsel (k c : nat) : nat := if decide (k = 1) then 0 else c.

(** [jnp.einsum('ohi,i->oh', w, z)] *)
Definition einsum_ohi_i (w z : tensor) : result tensor :=
  match shape w, shape z with
  | [o; h; i], [i'] =>
      match bdim i i' with
      | Some n =>
          Ok (Tensor [o; h]
                ((λ r, sum_R ((λ c, at_ (data w) (r * i + bsel i c)
                                    * at_ (data z) (bsel i' c))%R
                                 <$> seq 0 n)) <$> seq 0 (o * h)))
      | None => Raise ValueError
      end
  | _, _ => Raise ValueError
  end.

(** [jnp.einsum('oi,i->o', b, z)] *)
Definition einsum_oi_i (b z : tensor) : result tensor :=
  match shape b, shape z with
  | [o; i], [i'] =>
      match bdim i i' with
      | Some n =>
          Ok (Tensor [o]
                ((λ r, sum_R ((λ c, at_ (data b) (r * i + bsel i c)
                                    * at_ (data z) (bsel i' c))%R
                                 <$> seq 0 n)) <$> seq 0 o))
      | None => Raise ValueError
      end
  | _, _ => Raise ValueError
  end.

(** [jnp.einsum('oh,bh->bo', weights, x)] *)
Definition einsum_oh_bh (weights x : tensor) : result tensor :=
  match shape weights, shape x with
  | [o; h], [b; h'] =>
      match bdim h h' with
      | Some n =>
          Ok (Tensor [b; o]
                (r ← seq 0 b;
                 (λ c, sum_R ((λ k, at_ (data weights) (c * h + bsel h k)
                                    * at_ (data x) (r * h' + bsel h' k))%R
                                 <$> seq 0 n))
                   <$> seq 0 o))
      | None => Raise ValueError
      end
  | _, _ => Raise ValueError
  end.

(** ** jax pytrees of haiku parameters

    A haiku parameter structure is a mapping from module names to mappings
    from parameter names to arrays.  jax flattens a dict in the sorted order
    of its keys; the tree definition is the list of keys met on the way. *)

Abbreviation tree A := (gmap string (gmap string A)).
Abbreviation Params := (tree tensor).
Abbreviation treedef := (list (string * list string)).

Definition sorted_keys {A} (m : gmap string A) : list string :=
  merge_sort String.le (elements (dom m)).

Definition items {A} (m : gmap string A) : list (string * A) :=
  omap (λ k, (k,.) <$> m !! k) (sorted_keys m).

(** [jax.tree_leaves] *)
Definition tree_leaves {A} (t : tree A) : list A :=
  '(_, d) ← items t; (items d).*2.

(** [jax.tree_structure] *)
Definition tree_structure {A} (t : tree A) : treedef :=
  (λ '(m, d), (m, sorted_keys d)) <$> items t.

(** [jax.tree_unflatten]; raises when the number of leaves is not the one
    of the tree definition. *)
Fixpoint tree_unflatten {A} (td : treedef) (ls : list A) : result (tree A) :=
  match td with
  | [] => match ls with [] => Ok ∅ | _ => Raise ValueError end
  | (m, ks) :: td' =>
      if decide (length ks ≤ length ls) then
        rest ← tree_unflatten td' (drop (length ks) ls);
        Ok (<[m := list_to_map (zip ks (take (length ks) ls))]> rest)
      else Raise ValueError
  end.

(** [jax.tree_map(f, t)] for a function that cannot fail. *)
Definition tree_map {A B} (f : A → B) (t : tree A) : tree B :=
  (λ d : gmap string A, f <$> d) <$> t.

(** [jax.tree_multimap(f, t1, t2)]: both trees must have the same
    structure; [f] is applied to the leaves pairwise. *)
Definition tree_multimap {A B C} (f : A → B → result C)
    (t1 : tree A) (t2 : tree B) : result (tree C) :=
  if decide (tree_structure t1 = tree_structure t2) then
    ls ← mapM (λ p, f p.1 p.2) (zip (tree_leaves t1) (tree_leaves t2));
    tree_unflatten (tree_structure t1) ls
  else Raise ValueError.

(** [hk.data_structures.map(fn, structure)]: [fn(module_name, name, value)]
    for every entry, in a structure with the same keys. *)
Definition dict_mapM {A B} (f : string → A → result B) (d : gmap string A)
    : result (gmap string B) :=
  list_to_map <$> mapM (λ p, (p.1,.) <$> f p.1 p.2) (items d).

Definition hk_map {A B} (fn : string → string → A → result B) (t : tree A)
    : result (tree B) :=
  dict_mapM (λ m d, dict_mapM (fn m) d) t.

(** [jnp.broadcast_to(a, shape)] *)
Definition broadcast_to (a : tensor) (s : list nat) : result tensor :=
  if decide (broadcast_shapes (shape a) s = Some s) then
    Ok (Tensor s ((λ j, at_ (data a) (bidx s (shape a) j)) <$> seq 0 (numel s)))
  else Raise ValueError.

(** [chex.assert_shape] *)
Definition assert_shape (t : tensor) (s : list nat) : result unit :=
  if decide (shape t = s) then Ok () else Raise AssertionError.

#[global] Instance R_eq_dec : EqDecision R := Req_dec_T.

(** ** Random keys

    [jax.random] keys, their splitting and the samplers of the haiku
    initializers are kept abstract: the i-th sample drawn with a key. *)

Class Rng : Type := {
  Key : Type;
  PRNGKey : Z → Key;
  rng_split : Key → Key * Key;
  normal : Key → nat → R;
  truncated_normal : Key → nat → R
}.

(** [next(hk.PRNGSequence(seed))] *)
Definition PRNGSequence_next `{Rng} (seed : Z) : Key := (rng_split (PRNGKey seed)).2.

(** ** The haiku frame

    [fr_params] are the parameters collected ([init]) or supplied
    ([apply]); [fr_rng] is the key sequence of [hk.next_rng_key], absent
    under [hk.without_apply_rng]; [fr_frozen] holds under [apply], where no
    parameter may be created; [fr_names] counts the modules constructed
    with a given name, from which haiku makes module names unique. *)

Record frame `{Rng} : Type := Frame {
  fr_params : Params;
  fr_rng : option Key;
  fr_frozen : bool;
  fr_names : gmap string nat
}.
Arguments Frame {_} _ _ _ _.

Definition Hk `{Rng} (A : Type) : Type := frame → result (A * frame).

#[global] Instance Hk_ret `{Rng} : MRet Hk := λ A a fr, Ok (a, fr).
#[global] Instance Hk_bind `{Rng} : MBind Hk := λ A B f m fr,
  match m fr with Ok (a, fr') => f a fr' | Raise e => Raise e end.

Section Haiku.
Context `{Rng}.

Definition lift {A} (m : result A) : Hk A := λ fr,
  match m with Ok a => Ok (a, fr) | Raise e => Raise e end.

Definition raise {A} (e : exn) : Hk A := λ _, Raise e.

(** The name of a freshly constructed module: [base] for the first module
    constructed with that name, then [base_1], [base_2], ...  Names are
    relative to the enclosing module; the prefix haiku puts before them for
    the module made by [hk.to_module] is the same for all and left out. *)
Definition module_name_at (base : string) (n : nat) : string :=
  if decide (n = 0) then base else base +:+ "_" +:+ pretty n.

Definition unique_name (base : string) : Hk string := λ fr,
  let n := default 0 (fr_names fr !! base) in
  Ok (module_name_at base n,
      Frame (fr_params fr) (fr_rng fr) (fr_frozen fr) (<[base := S n]> (fr_names fr))).

(** [hk.next_rng_key()] *)
Definition next_rng_key : Hk Key := λ fr,
  match fr_rng fr with
  | Some k =>
      let '(k', out) := rng_split k in
      Ok (out, Frame (fr_params fr) (Some k') (fr_frozen fr) (fr_names fr))
  | None => Raise ValueError
  end.

(** An initializer receives the requested shape. *)
Definition Initializer : Type := list nat → Hk tensor.

Definition zeros : Initializer := λ s, mret (jnp_zeros s).

Definition TruncatedNormal (stddev : R) : Initializer := λ s,
  k ← next_rng_key;
  mret (Tensor s ((λ i, stddev * truncated_normal k i)%R <$> seq 0 (numel s))).

Definition RandomNormal : Initializer := λ s,
  k ← next_rng_key;
  mret (Tensor s (normal k <$> seq 0 (numel s))).

Definition set_param (module_name name : string) (p : tensor) (ps : Params) : Params :=
  <[module_name := <[name := p]> (default ∅ (ps !! module_name))]> ps.

(** [hk.get_parameter(name, shape, init=init)] inside the module
    [module_name]: the stored parameter if there is one, else a fresh one
    from [init] unless the parameters are frozen; in both cases a
    parameter whose shape is not the requested one is refused. *)
Definition get_parameter (module_name name : string) (s : list nat)
    (init : Initializer) : Hk tensor := λ fr,
  match fr_params fr !! module_name ≫= (.!! name) with
  | Some p =>
      if decide (shape p = s) then Ok (p, fr) else Raise ValueError
  | None =>
      if fr_frozen fr then Raise ValueError
      else
        match init s fr with
        | Ok (p, fr') =>
            if decide (shape p = s) then
              Ok (p, Frame (set_param module_name name p (fr_params fr'))
                           (fr_rng fr') (fr_frozen fr') (fr_names fr'))
            else Raise ValueError
        | Raise e => Raise e
        end
  end.

(** [hk.transform(f).init(rng, ...)] and
    [hk.without_apply_rng(hk.transform(f)).apply(params, ...)] *)
Definition hk_init {A} (m : Hk A) (rng : Key) : result Params :=
  (λ r, fr_params r.2) <$> m (Frame ∅ (Some rng) false ∅).

Definition hk_apply {A} (m : Hk A) (params : Params) : result A :=
  fst <$> m (Frame params None true ∅).

(** [jax.tree_map(f, t)] for a function that runs inside a haiku frame:
    the leaves are visited in order and the results put back. *)
Definition tree_mapM {A B} (f : A → Hk B) (t : tree A) : Hk (tree B) :=
  ls ← mapM f (tree_leaves t);
  lift (tree_unflatten (tree_structure t) ls).

(** *** [hk.Linear] *)

Record Linear : Type := mkLinear {
  lin_name : string;
  lin_output_size : nat;
  lin_w_init : option Initializer;
  lin_b_init : option Initializer
}.

Definition Linear_new (w_init b_init : option Initializer) (name : string)
    (output_size : nat) : Hk Linear :=
  n ← unique_name name;
  mret (mkLinear n output_size w_init b_init).

Definition Linear_call (l : Linear) (inputs : tensor) : Hk tensor :=
  match reverse (shape inputs) with
  | [] => raise ValueError
  | input_size :: _ =>
      let w_init :=
        default (TruncatedNormal (1 / sqrt (INR input_size))) (lin_w_init l) in
      w ← get_parameter (lin_name l) "w" [input_size; lin_output_size l] w_init;
      out ← lift (jnp_dot inputs w);
      b ← get_parameter (lin_name l) "b" [lin_output_size l]
            (default zeros (lin_b_init l));
      b ← lift (broadcast_to b (shape out));
      lift (jnp_add out b)
  end.

(** *** [hk.nets.MLP]: linear layers with a relu between them *)

Record MLP : Type := mkMLP { mlp_layers : list Linear }.

Definition MLP_new (output_sizes : list nat) (w_init b_init : option Initializer)
    : Hk MLP :=
  name ← unique_name "mlp";
  mret (mkMLP (imap (λ i n,
          mkLinear (name +:+ "/~/linear_" +:+ pretty i) n w_init b_init)
        output_sizes)).

Fixpoint MLP_loop (num_layers i : nat) (layers : list Linear) (out : tensor)
    : Hk tensor :=
  match layers with
  | [] => mret out
  | layer :: layers' =>
      out ← Linear_call layer out;
      let out := if decide (i < num_layers - 1) then relu out else out in
      MLP_loop num_layers (S i) layers' out
  end.

Definition MLP_call (m : MLP) (inputs : tensor) : Hk tensor :=
  MLP_loop (length (mlp_layers m)) 0 (mlp_layers m) inputs.
End Haiku.

(** ** The module under verification *)

Section Hypermodels.
Context `{Rng}.

(** [hk.Transformed] of a base network [y = f_theta(x)], without apply
    rng. *)
Record Transformed : Type := mkTransformed {
  tr_init : Key → tensor → result Params;
  tr_apply : Params → tensor → result tensor
}.

Definition hk_transform (f : tensor → Hk tensor) : Transformed :=
  mkTransformed (λ rng x, hk_init (f x) rng) (λ params x, hk_apply (f x) params).

(** Network outputs: an array, or [base.OutputWithPrior(train=..., extra=...)]. *)
Inductive Output : Type :=
  | Plain (out : tensor)
  | OutputWithPrior (train : tensor) (extra : gmap string Params).

(** [base.EpistemicNetwork]: an apply function, an init function and an
    indexer. *)
Record EpistemicNetwork : Type := mkEpistemicNetwork {
  apply : Params → tensor → tensor → result Output;
  init : Key → tensor → tensor → result Params;
  indexer : Key → tensor
}.

(** [super().__init__(enn.apply, enn.init, enn.indexer)] *)
Definition EpistemicNetwork_init (enn : EpistemicNetwork) : EpistemicNetwork :=
  mkEpistemicNetwork (apply enn) (init enn) (indexer enn).

(** *** DiagonalLinear *)

(** The dtype of an array.  [DiagonalLinear.__call__] reads the dtype of
    its input (line 441) and asks haiku for parameters of that dtype; the
    arrays of this file carry none, so it is passed next to the input.
    Complex dtypes are left out. *)
Inductive dtype : Set :=
  | float16 | bfloat16 | float32 | float64
  | int8 | int16 | int32 | int64
  | uint8 | uint16 | uint32 | uint64
  | bool_.

Definition is_floating (dt : dtype) : bool :=
  match dt with
  | float16 | bfloat16 | float32 | float64 => true
  | _ => false
  end.

(** An initializer as haiku calls it: with the shape and the dtype. *)
Definition DtypeInitializer : Type := list nat → dtype → Hk tensor.

(** [hk.initializers.TruncatedNormal(stddev=stddev)(shape, dtype)]: the
    samples come from [jax.random.truncated_normal], which refuses a dtype
    that is not a floating-point one with a ValueError. *)
Definition TruncatedNormal_dtype (stddev : R) : DtypeInitializer := λ s dt,
  if is_floating dt then TruncatedNormal stddev s else raise ValueError.

(** [jnp.zeros(shape, dtype)] *)
Definition zeros_dtype : DtypeInitializer := λ s _, zeros s.

Record DiagonalLinear : Type := mkDiagonalLinear {
  dl_name : string;
  dl_with_bias : bool;
  dl_w_init : option DtypeInitializer;
  dl_b_init : DtypeInitializer
}.

Definition DiagonalLinear_new (with_bias : bool)
    (w_init b_init : option DtypeInitializer)
    (name : option string) : Hk DiagonalLinear :=
  n ← unique_name (default "diagonal_linear" name);
  mret (mkDiagonalLinear n with_bias w_init (default zeros_dtype b_init)).

(** [inputs_dtype] is [inputs.dtype]. *)
Definition DiagonalLinear_call (self : DiagonalLinear) (inputs : tensor)
    (inputs_dtype : dtype) : Hk tensor :=
  match reverse (shape inputs) with
  | [] => raise ValueError
  | input_size :: _ =>
      let w_init :=
        default (TruncatedNormal_dtype (1 / sqrt (INR input_size))) (dl_w_init self) in
      w ← get_parameter (dl_name self) "w" [input_size] (λ s, w_init s inputs_dtype);
      e ← lift (jnp_add (scalar 1) (jnp_exp w));
      out ← lift (jnp_mul inputs (jnp_log e));
      if dl_with_bias self then
        b ← get_parameter (dl_name self) "b" [input_size]
              (λ s, dl_b_init self s inputs_dtype);
        lift (jnp_add out b)
      else mret out
  end.

(** *** hypermodel_module *)

(** [scale_fn]: weights by 1/sqrt(fan_in), biases unchanged. *)
Definition scale_fn (module_name name : string) (value : tensor) : result tensor :=
  if decide (name = "w") then
    match shape value with
    | [] => Raise IndexError
    | fan_in :: _ => jnp_div value (jnp_sqrt (scalar (INR fan_in)))
    end
  else Ok value.

(** Lines 131-148 of [hyper_fn]: the flat output, one vector per leaf.
    The index is a floating-point array, as are all arrays of this file. *)
Definition flat_output_fn (hyper_torso : tensor → Hk tensor)
    (diagonal_linear_hyper : bool)
    (base_shapes : tree (list nat)) (base_shapes_flat : tree nat)
    (index : tensor) : Hk (tree tensor) :=
  if diagonal_linear_hyper then
    _ ← lift (assert_shape index [sum_nat (tree_leaves base_shapes_flat)]);
    dl ← DiagonalLinear_new true None None None;
    hyper_index ← DiagonalLinear_call dl index float32;
    flat_output ← lift (jnp_split hyper_index
                          (removelast (cumsum (tree_leaves base_shapes_flat))));
    lift (tree_unflatten (tree_structure base_shapes) flat_output)
  else
    hyper_index ← hyper_torso index;
    final_layers ← tree_mapM (Linear_new None None "linear") base_shapes_flat;
    tree_mapM (λ layer, Linear_call layer hyper_index) final_layers.

(** Line 151: the flat output reshaped to the base shapes. *)
Definition generated_params_fn (hyper_torso : tensor → Hk tensor)
    (diagonal_linear_hyper : bool)
    (base_shapes : tree (list nat)) (base_shapes_flat : tree nat)
    (index : tensor) : Hk Params :=
  flat_output ← flat_output_fn hyper_torso diagonal_linear_hyper
                   base_shapes base_shapes_flat index;
  lift (tree_multimap reshape flat_output base_shapes).

Definition hyper_fn (transformed_base : Transformed)
    (hyper_torso : tensor → Hk tensor)
    (diagonal_linear_hyper return_generated_params scale : bool)
    (base_shapes : tree (list nat)) (base_shapes_flat : tree nat)
    (inputs index : tensor) : Hk Output :=
  generated_params ← generated_params_fn hyper_torso diagonal_linear_hyper
                        base_shapes base_shapes_flat index;
  generated_params_scaled ←
    (if scale then lift (hk_map scale_fn generated_params)
     else mret generated_params);
  out ← lift (tr_apply transformed_base generated_params_scaled inputs);
  if return_generated_params then
    train ← lift (tr_apply transformed_base generated_params_scaled inputs);
    mret (OutputWithPrior train
            {[ "hyper_net_out" := generated_params;
               "base_net_params" := generated_params_scaled ]})
  else mret (Plain out).

(** What [hypermodel_module] computes once, before it defines [hyper_fn]. *)
Definition base_shapes_of (base_params : Params) : tree (list nat) :=
  tree_map shape base_params.
Definition base_shapes_flat_of (base_params : Params) : tree nat :=
  tree_map len (tree_map ravel base_params).

Definition hypermodel_module (transformed_base : Transformed)
    (dummy_input : tensor) (hyper_torso : tensor → Hk tensor)
    (diagonal_linear_hyper return_generated_params scale : bool)
    : result (tensor → tensor → Hk Output) :=
  base_params ← tr_init transformed_base (PRNGKey 0) dummy_input;
  let base_shapes := base_shapes_of base_params in
  let base_shapes_flat := base_shapes_flat_of base_params in
  mret (hyper_fn transformed_base hyper_torso diagonal_linear_hyper
          return_generated_params scale base_shapes base_shapes_flat).

(** Modelled from the spec: [utils.epistemic_network_from_module] is not
    part of this file.  The epistemic network "pairs an apply function,
    init function, and indexer": the module, transformed by haiku without
    apply rng, and the indexer given. *)
Definition epistemic_network_from_module
    (enn_ctor : tensor → tensor → Hk Output) (indexer : Key → tensor)
    : EpistemicNetwork :=
  mkEpistemicNetwork
    (λ params x z, hk_apply (enn_ctor x z) params)
    (λ rng x z, hk_init (enn_ctor x z) rng)
    indexer.

(** *** MLPHypermodel *)

Definition MLPHypermodel_torso (hidden_sizes : option (list nat))
    (w_init b_init : option Initializer) : tensor → Hk tensor :=
  match hidden_sizes with
  | None => λ x, mret x
  | Some hidden_sizes => λ index,
      mlp ← MLP_new hidden_sizes w_init b_init;
      MLP_call mlp index
  end.

Definition MLPHypermodel (transformed_base : Transformed) (dummy_input : tensor)
    (indexer : Key → tensor) (hidden_sizes : option (list nat))
    (return_generated_params scale : bool) (w_init b_init : option Initializer)
    : result EpistemicNetwork :=
  let hyper_torso := MLPHypermodel_torso hidden_sizes w_init b_init in
  enn_ctor ← hypermodel_module transformed_base dummy_input hyper_torso false
               return_generated_params scale;
  let enn := epistemic_network_from_module enn_ctor indexer in
  mret (EpistemicNetwork_init enn).
End Hypermodels.

Section Priors.
Context `{Rng}.

(** The predictions carried by a network output. *)
Definition parse_net_output (o : Output) : tensor :=
  match o with Plain out => out | OutputWithPrior train _ => train end.

Definition with_preds (o : Output) (t : tensor) : Output :=
  match o with Plain _ => Plain t | OutputWithPrior _ extra => OutputWithPrior t extra end.

(** Modelled from the spec: [priors.convert_enn_to_prior_fn] is not part
    of this file.  The prior network is "independently parameterized,
    frozen after initialization", its parameters "fixed once at
    construction": they are initialised here, once, with the key given
    (as lines 387-391 do for the other prior), and the function returned
    forwards the network with them. *)
Definition convert_enn_to_prior_fn (enn : EpistemicNetwork) (dummy_input : tensor)
    (key : Key) : result (tensor → tensor → result tensor) :=
  let index := indexer enn key in
  prior_params ← init enn key dummy_input index;
  mret (λ x z, parse_net_output <$> apply enn prior_params x z).

(** Modelled from the spec: [priors.EnnWithAdditivePrior] is not part of
    this file.  It "additively combines [the prior network's] output with
    the primary network's output", the prior weighted by [prior_scale];
    init function and indexer are those of the primary network. *)
Definition EnnWithAdditivePrior (enn : EpistemicNetwork)
    (prior_fn : tensor → tensor → result tensor) (prior_scale : R)
    : EpistemicNetwork :=
  mkEpistemicNetwork
    (λ params x z,
       net_out ← apply enn params x z;
       prior ← prior_fn x z;
       scaled ← jnp_mul (scalar prior_scale) prior;
       sum ← jnp_add (parse_net_output net_out) scaled;
       mret (with_preds net_out sum))
    (init enn)
    (indexer enn).

(** *** MLPHypermodelWithHypermodelPrior *)

Definition MLP_net (output_sizes : list nat) (w_init b_init : option Initializer)
    (x : tensor) : Hk tensor :=
  mlp ← MLP_new output_sizes w_init b_init;
  MLP_call mlp x.

Definition MLPHypermodelWithHypermodelPrior
    (base_output_sizes : list nat) (prior_scale : R) (dummy_input : tensor)
    (indexer : Key → tensor) (prior_base_output_sizes : list nat)
    (hyper_hidden_sizes prior_hyper_hidden_sizes : option (list nat))
    (w_init b_init : option Initializer) (return_generated_params : bool)
    (seed : Z) (scale : bool) : result EpistemicNetwork :=
  let transformed_base := hk_transform (MLP_net base_output_sizes w_init b_init) in
  let transformed_prior_base :=
    hk_transform (MLP_net prior_base_output_sizes w_init b_init) in
  prior_enn ← MLPHypermodel transformed_prior_base dummy_input indexer
                prior_hyper_hidden_sizes return_generated_params scale w_init b_init;
  prior_fn ← convert_enn_to_prior_fn prior_enn dummy_input (PRNGKey seed);
  enn_wo_prior ← MLPHypermodel transformed_base dummy_input indexer
                   hyper_hidden_sizes return_generated_params scale w_init b_init;
  let enn := EnnWithAdditivePrior enn_wo_prior prior_fn prior_scale in
  mret (EpistemicNetwork_init enn).

(** *** HyperLinear *)

(** [a / n] for a python float [a] and a python int [n] (line 273,
    [self._weight_scaling / hidden_size]). *)
Definition python_div (a : R) (n : nat) : result R :=
  if decide (n = 0) then Raise ZeroDivisionError else Ok (a / INR n)%R.

Record HyperLinear : Type := mkHyperLinear {
  hl_name : string;
  hl_output_size : nat;
  hl_index_dim_per_layer : nat;
  hl_weight_scaling : R;
  hl_bias_scaling : R;
  hl_fixed_bias_val : R
}.

Definition HyperLinear_new (output_size index_dim_per_layer : nat)
    (weight_scaling bias_scaling fixed_bias_val : R) (name : string)
    : Hk HyperLinear :=
  n ← unique_name name;
  mret (mkHyperLinear n output_size index_dim_per_layer
          weight_scaling bias_scaling fixed_bias_val).

(** Where a row of [w] or [b] has norm zero the code divides zero by zero
    and carries nan on; the model has no nan, its entries there are what
    total real division gives, and nothing is stated about them. *)
Definition HyperLinear_call (self : HyperLinear) (x z : tensor) : Hk tensor :=
  match shape x with
  | [_; hidden_size] =>
      w ← get_parameter (hl_name self) "w"
            [hl_output_size self; hidden_size; hl_index_dim_per_layer self]
            RandomNormal;
      b ← get_parameter (hl_name self) "b"
            [hl_output_size self; hl_index_dim_per_layer self] RandomNormal;
      lift (
        nw ← norm_last w; w ← jnp_div w nw;
        nb ← norm_last b; b ← jnp_div b nb;
        scale ← python_div (hl_weight_scaling self) hidden_size;
        w ← jnp_mul w (jnp_sqrt (scalar scale));
        b ← jnp_mul b (jnp_sqrt (scalar (hl_bias_scaling self)));
        b ← jnp_add b (scalar (hl_fixed_bias_val self));
        weights ← einsum_ohi_i w z;
        bias ← einsum_oi_i b z;
        out ← einsum_oh_bh weights x;
        jnp_add out bias)
  | _ => raise ValueError
  end.

(** *** PriorMLPIndependentLayers *)

Record PriorMLPIndependentLayers : Type := mkPriorMLPIndependentLayers {
  pm_name : string;
  pm_output_sizes : list nat;
  pm_num_layers : nat;
  pm_index_dim : nat;
  pm_layers_indices : list tensor;
  pm_layers : list HyperLinear
}.

Definition PriorMLPIndependentLayers_new (output_sizes : list nat) (index_dim : nat)
    (weight_scaling bias_scaling fixed_bias_val : R) (name : string)
    : Hk PriorMLPIndependentLayers :=
  n ← unique_name name;
  let num_layers := length output_sizes in
  layers_indices ←
    (if decide (index_dim < num_layers) then
       mret (replicate num_layers (arange index_dim))
     else lift (array_split (arange index_dim) num_layers));
  layers ← mapM (λ p : tensor * nat,
              let index_dim_per_layer := len p.1 in
              HyperLinear_new p.2 index_dim_per_layer
                weight_scaling bias_scaling fixed_bias_val
                (n +:+ "/~/hyper_linear"))
            (zip layers_indices output_sizes);
  mret (mkPriorMLPIndependentLayers n output_sizes num_layers index_dim
          layers_indices layers).

(** The index handed to each layer (lines 321-326). *)
Definition index_layers_of (self : PriorMLPIndependentLayers) (z : tensor)
    : result (list tensor) :=
  if decide (pm_index_dim self < pm_num_layers self) then
    Ok (replicate (pm_num_layers self) z)
  else array_split z (pm_num_layers self).

(** The loop of lines 328-334, from layer number [i] on. *)
Fixpoint PriorMLP_loop (num_layers : nat) (index_layers : list tensor) (i : nat)
    (layers : list HyperLinear) (out : tensor) : Hk tensor :=
  match layers with
  | [] => mret out
  | layer :: layers' =>
      match index_layers !! i with
      | None => raise IndexError
      | Some index_layer =>
          out ← HyperLinear_call layer out index_layer;
          let out := if decide (i < num_layers - 1) then relu out else out in
          PriorMLP_loop num_layers index_layers (S i) layers' out
      end
  end.

Definition PriorMLPIndependentLayers_call (self : PriorMLPIndependentLayers)
    (x z : tensor) : Hk tensor :=
  index_layers ← lift (index_layers_of self z);
  PriorMLP_loop (pm_num_layers self) index_layers 0 (pm_layers self) x.

(** *** MLPHypermodelPriorIndependentLayers *)

(** [if problem_temperature: net_out /= problem_temperature]; [None] and
    [0.0] are false. *)
Definition temper (problem_temperature : option R) (net_out : tensor)
    : result tensor :=
  match problem_temperature with
  | Some t => if decide (t = 0%R) then Ok net_out else jnp_div net_out (scalar t)
  | None => Ok net_out
  end.

(** The local functions [base_net] and [prior_net] of the constructor. *)
Definition base_net (base_output_sizes : list nat) (w_init b_init : option Initializer)
    (problem_temperature : option R) (x : tensor) : Hk tensor :=
  net_out ← MLP_net base_output_sizes w_init b_init x;
  lift (temper problem_temperature net_out).

Definition prior_net (prior_base_output_sizes : list nat) (index_dim : nat)
    (prior_weight_scaling prior_bias_scaling prior_fixed_bias_val : R)
    (problem_temperature : option R) (x z : tensor) : Hk tensor :=
  pm ← PriorMLPIndependentLayers_new prior_base_output_sizes index_dim
         prior_weight_scaling prior_bias_scaling prior_fixed_bias_val
         "prior_independent_layers";
  net_out ← PriorMLPIndependentLayers_call pm x z;
  lift (temper problem_temperature net_out).

Definition MLPHypermodelPriorIndependentLayers
    (base_output_sizes : list nat) (prior_scale : R) (dummy_input : tensor)
    (indexer : Key → tensor) (prior_base_output_sizes : list nat)
    (hyper_hidden_sizes : option (list nat))
    (w_init b_init : option Initializer) (return_generated_params : bool)
    (prior_weight_scaling prior_bias_scaling prior_fixed_bias_val : R)
    (seed : Z) (scale : bool) (problem_temperature : option R)
    : result EpistemicNetwork :=
  let transformed_base :=
    hk_transform (base_net base_output_sizes w_init b_init problem_temperature) in
  let index := indexer (PRNGSequence_next seed) in
  match shape index with
  | [index_dim] =>
      let prior_enn :=
        prior_net prior_base_output_sizes index_dim prior_weight_scaling
          prior_bias_scaling prior_fixed_bias_val problem_temperature in
      prior_params ← hk_init (prior_enn dummy_input index) (PRNGSequence_next seed);
      let prior_fn x z := hk_apply (prior_enn x z) prior_params in
      enn_wo_prior ← MLPHypermodel transformed_base dummy_input indexer
                       hyper_hidden_sizes return_generated_params scale w_init b_init;
      let enn := EnnWithAdditivePrior enn_wo_prior prior_fn prior_scale in
      mret (EpistemicNetwork_init enn)
  | _ => Raise ValueError
  end.
End Priors.

(** ** Notions used in the statements *)

Section Notions.
Context `{Rng}.

(** The frame holds the parameter [name] of module [module_name]. *)
Definition has_param (fr : frame) (module_name name : string) (p : tensor) : Prop :=
  fr_params fr !! module_name ≫= (.!! name) = Some p.

(** The frame holds no parameter [name] of module [module_name]. *)
Definition lacks_param (fr : frame) (module_name name : string) : Prop :=
  fr_params fr !! module_name ≫= (.!! name) = None.


(** A stack of HyperLinear layers in which each layer is called with the
    index written next to it, a relu after every layer but the last of
    the [num_layers]; [i] is the number of the first layer of the list. *)
Fixpoint forward_with (num_layers i : nat) (calls : list (HyperLinear * tensor))
    (out : tensor) : Hk tensor :=
  match calls with
  | [] => mret out
  | (layer, index_layer) :: calls' =>
      out ← HyperLinear_call layer out index_layer;
      let out := if decide (i < num_layers - 1) then relu out else out in
      forward_with num_layers (S i) calls' out
  end.

(** [out] is [net_out + prior_scale * prior]. *)
Definition is_sum_with_prior (out net_out prior : tensor) (prior_scale : R) : Prop :=
  ∃ scaled,
    jnp_mul (scalar prior_scale) prior = Ok scaled ∧ jnp_add net_out scaled = Ok out.

(** The apply function of [net] returns the output of [enn] plus
    [prior_scale] times the output of [prior_fn]: as arrays and, when the
    two outputs have one shape, element by element. *)
Definition additive_prior (net enn : EpistemicNetwork)
    (prior_fn : tensor → tensor → result tensor) (prior_scale : R) : Prop :=
  ∀ params x z out,
    apply net params x z = Ok out →
    ∃ net_out prior,
      apply enn params x z = Ok net_out ∧
      prior_fn x z = Ok prior ∧
      is_sum_with_prior (parse_net_output out) (parse_net_output net_out) prior prior_scale ∧
      (wf (parse_net_output net_out) → wf prior →
       shape prior = shape (parse_net_output net_out) →
       shape (parse_net_output out) = shape (parse_net_output net_out) ∧
       ∀ j, j < numel (shape (parse_net_output net_out)) →
         at_ (data (parse_net_output out)) j =
           (at_ (data (parse_net_output net_out)) j + prior_scale * at_ (data prior) j)%R).

(** [net] is [enn] with the prior function added: apply as in
    [EnnWithAdditivePrior], init function and indexer those of [enn]; two
    calls of apply at the same input and index, with whatever parameters,
    add the same prior term. *)
Definition with_frozen_prior (net enn : EpistemicNetwork)
    (prior_fn : tensor → tensor → result tensor) (prior_scale : R) : Prop :=
  (∀ params x z,
     apply net params x z = apply (EnnWithAdditivePrior enn prior_fn prior_scale) params x z) ∧
  (∀ rng x z, init net rng x z = init enn rng x z) ∧
  (∀ rng, indexer net rng = indexer enn rng) ∧
  (∀ params1 params2 x z out1 out2,
     apply net params1 x z = Ok out1 → apply net params2 x z = Ok out2 →
     ∃ prior net_out1 net_out2,
       prior_fn x z = Ok prior ∧
       apply enn params1 x z = Ok net_out1 ∧
       apply enn params2 x z = Ok net_out2 ∧
       is_sum_with_prior (parse_net_output out1) (parse_net_output net_out1)
         prior prior_scale ∧
       is_sum_with_prior (parse_net_output out2) (parse_net_output net_out2)
         prior prior_scale).


(** No index coordinate is associated with two different layers. *)
Definition layers_indices_disjoint (self : PriorMLPIndependentLayers) : Prop :=
  ∀ i j li lj c,
    i ≠ j →
    pm_layers_indices self !! i = Some li →
    pm_layers_indices self !! j = Some lj →
    c ∈ data li → c ∉ data lj.
End Notions.

(** The dictionaries [tree_unflatten] builds, in the order of the tree
    definition. *)
Fixpoint entries {A} (td : treedef) (ls : list A) : list (string * gmap string A) :=
  match td with
  | [] => []
  | (m, ks) :: td' =>
      (m, list_to_map (zip ks (take (length ks) ls))) :: entries td' (drop (length ks) ls)
  end.

(** Tree definitions of dictionaries: keys in strictly increasing order. *)
Definition keys_wf (ks : list string) : Prop := NoDup ks ∧ Sorted String.le ks.
Definition treedef_wf (td : treedef) : Prop :=
  keys_wf td.*1 ∧ Forall (λ e, keys_wf e.2) td.

(** Number of leaves of a tree definition. *)
Definition num_leaves (td : treedef) : nat := sum_nat ((λ e, length e.2) <$> td).

(** Same tree structure and same shape at every leaf. *)
Definition same_shapes (t1 t2 : Params) : Prop :=
  tree_structure t1 = tree_structure t2 ∧ tree_map shape t1 = tree_map shape t2.

(** Consecutive pieces of the given sizes, from position [off] on. *)
Fixpoint chunks (t : tensor) (off : nat) (sizes : list nat) : list tensor :=
  match sizes with
  | [] => []
  | s :: sizes' => slice0 t off (off + s) :: chunks t (off + s) sizes'
  end.

(** Concrete random keys used to run the definitions on examples. *)
Definition demo_rng : Rng :=
  {| Key := nat; PRNGKey := Z.to_nat; rng_split := λ k, (2 * k + 1, 2 * k + 2);
     normal := λ _ _, 1%R; truncated_normal := λ _ _, 1%R |}.

Definition demo_dl : @DiagonalLinear demo_rng :=
  mkDiagonalLinear "diagonal_linear" true None zeros_dtype.

Definition demo_dl_frame : @frame demo_rng :=
  Frame {[ "diagonal_linear" :=
             {[ "w" := Tensor [2] [0; 0]%R; "b" := Tensor [2] [1; 1]%R ]} ]}
        None true ∅.


Definition demo_generated : Params :=
  {[ "linear" := {[ "w" := Tensor [2; 1] [1; 2]%R; "b" := Tensor [1] [3]%R ]} ]}.

Definition demo_frame_init : @frame demo_rng := @Frame demo_rng ∅ (Some 0) false ∅.

(** Two layers and one index dimension; two layers and three. *)
Definition demo_pm_whole_run :=
  PriorMLPIndependentLayers_new (H:=demo_rng) [1; 1] 1 1 1 0
    "prior_independent_layers" demo_frame_init.
Definition demo_pm_split_run :=
  PriorMLPIndependentLayers_new (H:=demo_rng) [1; 1] 3 1 1 0
    "prior_independent_layers" demo_frame_init.

Definition run_value {A} (d : A) (r : result (A * @frame demo_rng)) : A :=
  match r with Ok (a, _) => a | Raise _ => d end.
Definition run_frame {A} (r : result (A * @frame demo_rng)) : @frame demo_rng :=
  match r with Ok (_, fr) => fr | Raise _ => demo_frame_init end.

Definition demo_pm_none : PriorMLPIndependentLayers :=
  mkPriorMLPIndependentLayers "" [] 0 0 [] [].
Definition demo_pm_whole := run_value demo_pm_none demo_pm_whole_run.
Definition demo_pm_split := run_value demo_pm_none demo_pm_split_run.

(** A base network with one linear layer of two outputs, its hypermodel,
    and one evaluation of it under [init]. *)
Definition demo_base : @Transformed demo_rng := hk_transform (MLP_net [2] None None).
Definition demo_dummy : tensor := Tensor [1; 3] [0; 0; 0]%R.
Definition demo_index : tensor := Tensor [2] [1; 1]%R.
Definition demo_bp : Params :=
  match tr_init demo_base (@PRNGKey demo_rng 0) demo_dummy with
  | Ok p => p
  | Raise _ => ∅
  end.
Definition demo_ctor : tensor → tensor → @Hk demo_rng Output :=
  hyper_fn demo_base (λ x, mret x) false true true
    (base_shapes_of demo_bp) (base_shapes_flat_of demo_bp).
Definition demo_hyper_run := demo_ctor demo_dummy demo_index demo_frame_init.
Definition demo_out : Output := run_value (Plain (scalar 0)) demo_hyper_run.

Definition demo_inputs : tensor := Tensor [2; 3] [1; 2; 3; 4; 5; 6]%R.
Definition demo_indexer : @Key demo_rng → tensor := λ _, demo_index.
Definition demo_enn : @EpistemicNetwork demo_rng :=
  mkEpistemicNetwork
    (λ params x z, hk_apply (demo_ctor x z) params)
    (λ rng x z, hk_init (demo_ctor x z) rng)
    demo_indexer.
Definition demo_hyper_run2 := demo_ctor demo_inputs demo_index demo_frame_init.

(** The two networks with a prior, over the same sizes. *)
Definition demo_prior_params : Params :=
  match init demo_enn (@PRNGKey demo_rng 0) demo_dummy (indexer demo_enn (@PRNGKey demo_rng 0)) with
  | Ok p => p
  | Raise _ => ∅
  end.
Definition demo_net1 : @EpistemicNetwork demo_rng :=
  EpistemicNetwork_init
    (EnnWithAdditivePrior demo_enn
       (λ x z, parse_net_output <$> apply demo_enn demo_prior_params x z) 1%R).

Definition demo_base2 : @Transformed demo_rng := hk_transform (base_net [2] None None None).
Definition demo_bp2 : Params :=
  match tr_init demo_base2 (@PRNGKey demo_rng 0) demo_dummy with
  | Ok p => p
  | Raise _ => ∅
  end.
Definition demo_enn2 : @EpistemicNetwork demo_rng :=
  let enn_ctor :=
    hyper_fn demo_base2 (λ x, mret x) false true true
      (base_shapes_of demo_bp2) (base_shapes_flat_of demo_bp2) in
  mkEpistemicNetwork
    (λ params x z, hk_apply (enn_ctor x z) params)
    (λ rng x z, hk_init (enn_ctor x z) rng)
    demo_indexer.
Definition demo_prior_net : tensor → tensor → @Hk demo_rng tensor :=
  prior_net [2] 2 1 1 0 None.
Definition demo_prior_params2 : Params :=
  match hk_init (demo_prior_net demo_dummy demo_index) (@PRNGSequence_next demo_rng 0) with
  | Ok p => p
  | Raise _ => ∅
  end.
Definition demo_net2 : @EpistemicNetwork demo_rng :=
  EpistemicNetwork_init
    (EnnWithAdditivePrior demo_enn2
       (λ x z, hk_apply (demo_prior_net x z) demo_prior_params2) 1%R).

(** ** Examples for the further properties *)

(** One HyperLinear layer with stored parameters. *)
Definition demo_hl : HyperLinear := mkHyperLinear "hyper_linear" 1 2 1 1 0.
Definition demo_hl_frame : @frame demo_rng :=
  Frame {[ "hyper_linear" :=
             {[ "w" := Tensor [1; 3; 2] [1; 2; 3; 4; 5; 6]%R;
                "b" := Tensor [1; 2] [1; 1]%R ]} ]}
        None true ∅.
(** The prior MLP of two layers and three index dimensions, called once. *)
Definition demo_z3 : tensor := Tensor [3] [1; 1; 1]%R.
Definition demo_pm_call_run :=
  PriorMLPIndependentLayers_call (H:=demo_rng) demo_pm_split demo_inputs demo_z3
    demo_frame_init.

(** The hypermodel of the base network on the diagonal path: eight base
    parameter entries, so an index of eight coordinates. *)
Definition demo_ctor_diag : tensor → tensor → @Hk demo_rng Output :=
  hyper_fn demo_base (λ x, mret x) true true true
    (base_shapes_of demo_bp) (base_shapes_flat_of demo_bp).
Definition demo_index8 : tensor := Tensor [8] [1; 1; 1; 1; 1; 1; 1; 1]%R.
Definition demo_diag_run :=
  generated_params_fn (H:=demo_rng) (λ x, mret x) true
    (base_shapes_of demo_bp) (base_shapes_flat_of demo_bp) demo_index8 demo_frame_init.
(** * Properties *)

(** ** The error monad *)

Lemma result_bind_ok {A B} (f : A → result B) (m : result A) (b : B) :
  m ≫= f = Ok b ↔ ∃ a, m = Ok a ∧ f a = Ok b.
Proof.
  destruct m as [a|e]; simpl; split.
  - eauto.
  - by intros (a' & [= ->] & ?).
  - done.
  - by intros (a' & [=] & ?).
Qed.

Lemma result_fmap_ok {A B} (f : A → B) (m : result A) (b : B) :
  f <$> m = Ok b ↔ ∃ a, m = Ok a ∧ b = f a.
Proof.
  destruct m as [a|e]; simpl; split.
  - intros [= <-]. eauto.
  - by intros (a' & [= ->] & ->).
  - done.
  - by intros (a' & [=] & ?).
Qed.

Lemma mapM_result_ok {A B} (f : A → result B) (l : list A) (k : list B) :
  mapM f l = Ok k ↔ Forall2 (λ x y, f x = Ok y) l k.
Proof.
  revert k. induction l as [|x l IH]; intros k; simpl.
  - split; [intros [= <-]; constructor | by inversion 1].
  - split.
    + intros (y & Hy & Hk)%result_bind_ok.
      apply result_bind_ok in Hk as (k' & Hk' & [= <-]).
      constructor; [done | by apply IH].
    + inversion 1 as [|? y ? k' Hy Hk']; subst.
      apply result_bind_ok. exists y. split; [done|].
      apply result_bind_ok. exists k'. split; [by apply IH | done].
Qed.

(** ** Shapes and broadcasting *)

Lemma numel_app s1 s2 : numel (s1 ++ s2) = numel s1 * numel s2.
Proof. induction s1 as [|a s1 IH]; simpl; [lia | rewrite IH; lia]. Qed.

Lemma numel_reverse s : numel (reverse s) = numel s.
Proof.
  induction s as [|a s IH]; [done|].
  rewrite reverse_cons, numel_app, IH. simpl. lia.
Qed.

Lemma map_at_seq {B} (g : R → B) (l : list R) :
  (λ j, g (at_ l j)) <$> seq 0 (length l) = g <$> l.
Proof.
  induction l as [|x l IH] using rev_ind; [done|].
  rewrite length_app. change (length [x]) with 1.
  rewrite Nat.add_1_r, seq_S, !fmap_app. simpl.
  unfold at_ at 2. rewrite app_nth2, Nat.sub_diag by lia. simpl. f_equal.
  rewrite <- IH. apply list_fmap_ext. intros i j [-> Hj]%lookup_seq.
  unfold at_. by rewrite app_nth1 by lia.
Qed.

Lemma imap_at_seq {B} (g : nat → R → B) (l : list R) :
  (λ j, g j (at_ l j)) <$> seq 0 (length l) = imap g l.
Proof.
  revert g. induction l as [|x l IH]; intros g; [done|].
  simpl. f_equal. rewrite <- (IH (g ∘ S)), <- seq_shift, <- list_fmap_compose.
  done.
Qed.

Lemma broadcast_shapes_nil_r s : broadcast_shapes s [] = Some s.
Proof.
  unfold broadcast_shapes. rewrite reverse_nil.
  destruct (reverse s) eqn:E; simpl.
  - apply (f_equal reverse) in E. rewrite reverse_involutive in E. by subst.
  - by rewrite <- E, reverse_involutive.
Qed.

Lemma broadcast_shapes_nil_l s : broadcast_shapes [] s = Some s.
Proof.
  unfold broadcast_shapes. rewrite reverse_nil. simpl.
  by rewrite reverse_involutive.
Qed.

Lemma bdim_diag k : bdim k k = Some k.
Proof. unfold bdim. by rewrite decide_True. Qed.

Lemma bshape_rev_diag r : bshape_rev r r = Some r.
Proof.
  induction r as [|a r IH]; [done|]. simpl. rewrite bdim_diag. simpl.
  by rewrite IH.
Qed.

Lemma broadcast_shapes_diag s : broadcast_shapes s s = Some s.
Proof.
  unfold broadcast_shapes. rewrite bshape_rev_diag. simpl.
  by rewrite reverse_involutive.
Qed.

Lemma broadcast_shapes_last s k : broadcast_shapes (s ++ [k]) [k] = Some (s ++ [k]).
Proof.
  unfold broadcast_shapes. rewrite reverse_app. simpl.
  rewrite bdim_diag. simpl.
  destruct (reverse s) eqn:E; simpl; rewrite <- ?E.
  - apply (f_equal reverse) in E. rewrite reverse_involutive in E. by subst.
  - by rewrite reverse_cons, reverse_involutive.
Qed.

Lemma bidx_nil so j : bidx so [] j = 0.
Proof. unfold bidx. rewrite reverse_nil. by destruct (reverse so). Qed.

Lemma bidx_rev_diag r j : j < numel r → bidx_rev r r j = j.
Proof.
  revert j. induction r as [|a r IH]; intros j Hj; simpl in *; [lia|].
  assert (a ≠ 0) by (intros ->; simpl in Hj; lia).
  rewrite IH.
  - case_decide; subst.
    + rewrite Nat.div_1_r. lia.
    + pose proof (Nat.div_mod_eq j a). lia.
  - apply Nat.Div0.div_lt_upper_bound. lia.
Qed.

Lemma bidx_diag s j : j < numel s → bidx s s j = j.
Proof. intros. apply bidx_rev_diag. by rewrite numel_reverse. Qed.

Lemma bidx_last s k j : bidx (s ++ [k]) [k] j = j `mod` k.
Proof.
  unfold bidx. rewrite reverse_app. simpl.
  case_decide; subst.
  - rewrite Nat.mod_1_r. by destruct (reverse s); simpl; lia.
  - destruct (reverse s); simpl; lia.
Qed.

Lemma bin_op_scalar_r f a c :
  wf a → bin_op f a (scalar c) = Ok (Tensor (shape a) ((λ x, f x c) <$> data a)).
Proof.
  intros Hwf. unfold bin_op, scalar. cbn [shape data].
  rewrite broadcast_shapes_nil_r.
  do 2 f_equal. rewrite <- Hwf, <- map_at_seq.
  apply list_fmap_ext. intros i j [-> Hj]%lookup_seq. simpl.
  rewrite bidx_nil, bidx_diag by (by rewrite <- Hwf). done.
Qed.

Lemma bin_op_scalar_l f c a :
  wf a → bin_op f (scalar c) a = Ok (Tensor (shape a) (f c <$> data a)).
Proof.
  intros Hwf. unfold bin_op, scalar. cbn [shape data].
  rewrite broadcast_shapes_nil_l.
  do 2 f_equal. rewrite <- Hwf, <- map_at_seq.
  apply list_fmap_ext. intros i j [-> Hj]%lookup_seq. simpl.
  rewrite bidx_nil, bidx_diag by (by rewrite <- Hwf). done.
Qed.

Lemma bin_op_same f a b :
  wf a → shape a = shape b →
  bin_op f a b =
    Ok (Tensor (shape a) (imap (λ j x, f x (at_ (data b) j)) (data a))).
Proof.
  intros Hwf Hs. unfold bin_op. rewrite <- Hs, broadcast_shapes_diag.
  do 2 f_equal. rewrite <- Hwf, <- imap_at_seq.
  apply list_fmap_ext. intros i j [-> Hj]%lookup_seq. simpl.
  rewrite bidx_diag by (by rewrite <- Hwf). done.
Qed.

Lemma bin_op_shape f a b t :
  bin_op f a b = Ok t → broadcast_shapes (shape a) (shape b) = Some (shape t).
Proof.
  unfold bin_op. destruct (broadcast_shapes _ _); [|done]. by intros [= <-].
Qed.


(** ** Running haiku code *)

Section HaikuFacts.
Context `{Rng}.

Lemma Hk_bind_ok {A B} (f : A → Hk B) (m : Hk A) fr b fr' :
  (m ≫= f) fr = Ok (b, fr') ↔ ∃ a fr1, m fr = Ok (a, fr1) ∧ f a fr1 = Ok (b, fr').
Proof.
  unfold mbind, Hk_bind. destruct (m fr) as [[a fr1]|e]; split.
  - eauto.
  - by intros (? & ? & [= -> ->] & ?).
  - done.
  - by intros (? & ? & [=] & ?).
Qed.

Lemma Hk_bind_eq {A B} (f : A → Hk B) (m : Hk A) fr a fr1 :
  m fr = Ok (a, fr1) → (m ≫= f) fr = f a fr1.
Proof. intros Hm. unfold mbind, Hk_bind. by rewrite Hm. Qed.


Lemma lift_ok {A} (m : result A) fr a fr' :
  lift m fr = Ok (a, fr') ↔ m = Ok a ∧ fr' = fr.
Proof.
  unfold lift. destruct m; split; try done.
  - by intros [= -> ->].
  - by intros [[= ->] ->].
  - by intros [[=] _].
Qed.

Lemma lift_eq {A} (a : A) fr : lift (Ok a) fr = Ok (a, fr).
Proof. done. Qed.

Lemma get_parameter_shape module_name name s init fr p fr' :
  get_parameter module_name name s init fr = Ok (p, fr') → shape p = s.
Proof.
  unfold get_parameter.
  destruct (fr_params fr !! module_name ≫= _) as [q|].
  - case_decide; [|done]. by intros [= -> _].
  - destruct (fr_frozen fr); [done|].
    destruct (init s fr) as [[q fr1]|]; [|done].
    case_decide; [|done]. by intros [= -> _].
Qed.
End HaikuFacts.

(** ** DiagonalLinear *)

Lemma bin_op_ok_shape f a b so :
  broadcast_shapes (shape a) (shape b) = Some so →
  ∃ t, bin_op f a b = Ok t ∧ shape t = so.
Proof. intros Hs. unfold bin_op. rewrite Hs. eauto. Qed.

Lemma bin_op_ok_wf f a b t : bin_op f a b = Ok t → wf t.
Proof.
  unfold bin_op. destruct (broadcast_shapes _ _); [|done]. intros [= <-].
  unfold wf. simpl. by rewrite length_fmap, length_seq.
Qed.

Lemma reverse_cons_inv {A} (s : list A) k lead :
  reverse s = k :: lead → s = reverse lead ++ [k].
Proof.
  intros E. apply (f_equal reverse) in E.
  by rewrite reverse_involutive, reverse_cons in E.
Qed.

Lemma at_fmap (f : R → R) l i : i < length l → at_ (f <$> l) i = f (at_ l i).
Proof.
  revert i. induction l as [|x l IH]; intros i Hi; simpl in *; [lia|].
  destruct i as [|i]; [done|]. apply IH. lia.
Qed.

Lemma at_imap (g : nat → R → R) l i : i < length l → at_ (imap g l) i = g i (at_ l i).
Proof.
  revert g i. induction l as [|x l IH]; intros g i Hi; simpl in *; [lia|].
  destruct i as [|i]; [done|]. unfold at_ in *. simpl. apply (IH (g ∘ S)). lia.
Qed.

Section DiagonalLinearFacts.
Context `{Rng}.

(** What [hk.get_parameter] does with what the frame holds. *)
Lemma get_parameter_stored fr module_name name s init p :
  has_param fr module_name name p → shape p = s →
  get_parameter module_name name s init fr = Ok (p, fr).
Proof.
  unfold has_param, get_parameter. intros -> Hs. by rewrite decide_True.
Qed.

Lemma get_parameter_other_shape fr module_name name s init p :
  has_param fr module_name name p → shape p ≠ s →
  get_parameter module_name name s init fr = Raise ValueError.
Proof.
  unfold has_param, get_parameter. intros -> Hs. by rewrite decide_False.
Qed.

Lemma get_parameter_missing_frozen fr module_name name s init :
  lacks_param fr module_name name → fr_frozen fr = true →
  get_parameter module_name name s init fr = Raise ValueError.
Proof. unfold lacks_param, get_parameter. by intros -> ->. Qed.

Lemma get_parameter_missing_init_raises fr module_name name s init e :
  lacks_param fr module_name name → fr_frozen fr = false →
  init s fr = Raise e →
  get_parameter module_name name s init fr = Raise e.
Proof. unfold lacks_param, get_parameter. by intros -> -> ->. Qed.

Lemma DiagonalLinear_call_scalar self inputs dt fr :
  shape inputs = [] → DiagonalLinear_call self inputs dt fr = Raise ValueError.
Proof. intros Hs. unfold DiagonalLinear_call. by rewrite Hs. Qed.

(** Whenever the call returns, the input is not a scalar and the output
    has its shape. *)
Lemma DiagonalLinear_call_ok_shape self inputs dt fr out fr' :
  DiagonalLinear_call self inputs dt fr = Ok (out, fr') →
  shape inputs ≠ [] ∧ shape out = shape inputs ∧ wf out.
Proof.
  unfold DiagonalLinear_call.
  destruct (reverse (shape inputs)) as [|k lead] eqn:Hrev; [done|].
  pose proof (reverse_cons_inv _ _ _ Hrev) as Hsi.
  intros (w & fr1 & Hw & Hrest)%Hk_bind_ok.
  apply Hk_bind_ok in Hrest as (e & fr2 & He & Hrest).
  apply Hk_bind_ok in Hrest as (o & fr3 & Ho & Hrest).
  apply lift_ok in He as [He ->]. apply lift_ok in Ho as [Ho ->].
  pose proof (get_parameter_shape _ _ _ _ _ _ _ Hw) as Hsw.
  unfold jnp_add, jnp_mul, jnp_log, jnp_exp in *.
  pose proof (bin_op_shape _ _ _ _ He) as Hse.
  simpl in Hse. rewrite Hsw, broadcast_shapes_nil_l in Hse. injection Hse as Hse.
  pose proof (bin_op_shape _ _ _ _ Ho) as Hso.
  simpl in Hso. rewrite <- Hse, Hsi, broadcast_shapes_last in Hso.
  injection Hso as Hso.
  split; [rewrite Hsi; by destruct (reverse lead)|].
  destruct (dl_with_bias self).
  - apply Hk_bind_ok in Hrest as (b & fr4 & Hb & Hrest).
    apply lift_ok in Hrest as [Hadd ->].
    pose proof (get_parameter_shape _ _ _ _ _ _ _ Hb) as Hsb.
    pose proof (bin_op_shape _ _ _ _ Hadd) as Hsa.
    rewrite <- Hso, Hsb, broadcast_shapes_last in Hsa. injection Hsa as Hsa.
    split; [by rewrite <- Hsa, Hsi | by eapply bin_op_ok_wf].
  - injection Hrest as <- <-. split; [by rewrite <- Hso, Hsi | by eapply bin_op_ok_wf].
Qed.

(** Lines 450-454 never fail: once haiku has delivered the parameters the
    call returns. *)
Lemma DiagonalLinear_call_delivered self inputs dt fr k lead w fr1 :
  reverse (shape inputs) = k :: lead →
  get_parameter (dl_name self) "w" [k]
    (λ s, default (TruncatedNormal_dtype (1 / sqrt (INR k))) (dl_w_init self) s dt) fr
    = Ok (w, fr1) →
  (dl_with_bias self = true →
   ∃ b fr2, get_parameter (dl_name self) "b" [k] (λ s, dl_b_init self s dt) fr1
            = Ok (b, fr2)) →
  ∃ out fr', DiagonalLinear_call self inputs dt fr = Ok (out, fr') ∧
             (dl_with_bias self = false → fr' = fr1) ∧
             (∀ b fr2, get_parameter (dl_name self) "b" [k] (λ s, dl_b_init self s dt) fr1
                       = Ok (b, fr2) → dl_with_bias self = true → fr' = fr2).
Proof.
  intros Hrev Hw Hb.
  pose proof (get_parameter_shape _ _ _ _ _ _ _ Hw) as Hsw.
  pose proof (reverse_cons_inv _ _ _ Hrev) as Hsi.
  unfold DiagonalLinear_call, jnp_add, jnp_mul. rewrite Hrev.
  rewrite (Hk_bind_eq _ _ _ _ _ Hw).
  destruct (bin_op_ok_shape Rplus (scalar 1) (jnp_exp w) [k]) as (e & He & Hse).
  { simpl. rewrite Hsw. apply broadcast_shapes_nil_l. }
  rewrite He. rewrite (Hk_bind_eq _ _ _ _ _ (lift_eq _ _)).
  destruct (bin_op_ok_shape Rmult inputs (jnp_log e) (reverse lead ++ [k]))
    as (o & Ho & Hso).
  { simpl. rewrite Hse, Hsi. apply broadcast_shapes_last. }
  rewrite Ho. rewrite (Hk_bind_eq _ _ _ _ _ (lift_eq _ _)).
  destruct (dl_with_bias self) eqn:Hbias.
  - destruct (Hb eq_refl) as (b & fr2 & Hb').
    pose proof (get_parameter_shape _ _ _ _ _ _ _ Hb') as Hsb.
    rewrite (Hk_bind_eq _ _ _ _ _ Hb').
    destruct (bin_op_ok_shape Rplus o b (reverse lead ++ [k])) as (t & Ht & Hst).
    { rewrite Hso, Hsb. apply broadcast_shapes_last. }
    rewrite Ht, lift_eq. eexists _, _. split; [done|]. split; [done|].
    intros b0 fr0 Hb0 _. congruence.
  - eexists _, _. split; [done|]. split; [done|]. done.
Qed.

Lemma DiagonalLinear_call_w_raises self inputs dt fr k lead e :
  reverse (shape inputs) = k :: lead →
  get_parameter (dl_name self) "w" [k]
    (λ s, default (TruncatedNormal_dtype (1 / sqrt (INR k))) (dl_w_init self) s dt) fr
    = Raise e →
  DiagonalLinear_call self inputs dt fr = Raise e.
Proof.
  intros Hrev Hw. unfold DiagonalLinear_call. rewrite Hrev.
  unfold mbind, Hk_bind. by rewrite Hw.
Qed.

Lemma DiagonalLinear_call_b_raises self inputs dt fr k lead w e :
  reverse (shape inputs) = k :: lead →
  has_param fr (dl_name self) "w" w → shape w = [k] →
  dl_with_bias self = true →
  get_parameter (dl_name self) "b" [k] (λ s, dl_b_init self s dt) fr = Raise e →
  DiagonalLinear_call self inputs dt fr = Raise e.
Proof.
  intros Hrev Hw Hsw Hbias Hb.
  pose proof (reverse_cons_inv _ _ _ Hrev) as Hsi.
  unfold DiagonalLinear_call, jnp_add, jnp_mul. rewrite Hrev.
  rewrite (Hk_bind_eq _ _ _ _ _ (get_parameter_stored _ _ _ _ _ _ Hw Hsw)).
  destruct (bin_op_ok_shape Rplus (scalar 1) (jnp_exp w) [k]) as (e1 & He & Hse).
  { simpl. rewrite Hsw. apply broadcast_shapes_nil_l. }
  rewrite He. rewrite (Hk_bind_eq _ _ _ _ _ (lift_eq _ _)).
  destruct (bin_op_ok_shape Rmult inputs (jnp_log e1) (reverse lead ++ [k]))
    as (o & Ho & Hso).
  { simpl. rewrite Hse, Hsi. apply broadcast_shapes_last. }
  rewrite Ho. rewrite (Hk_bind_eq _ _ _ _ _ (lift_eq _ _)), Hbias.
  unfold mbind, Hk_bind. by rewrite Hb.
Qed.

(** C8. DiagonalLinear.__call__ raises ValueError when its input is a
    scalar, and whenever it returns the input is not a scalar and the
    output has the shape of the input.  A non-scalar input is answered
    when haiku delivers the parameters w and b of shape (input_size,):
    with parameters of that shape stored (apply), and at init with the
    default initializers for an input of a floating-point dtype.  It is
    refused with a ValueError, too, when a stored parameter has another
    shape, when a parameter is missing and none may be created (apply),
    and at init when the dtype of the input is not a floating-point one,
    which the default weight initializer does not accept. *)
Theorem C8_DiagonalLinear_call_shape (self : DiagonalLinear) (inputs : tensor)
    (dt : dtype) (fr : frame) :
  (shape inputs = [] → DiagonalLinear_call self inputs dt fr = Raise ValueError) ∧
  (∀ out fr', DiagonalLinear_call self inputs dt fr = Ok (out, fr') →
     shape inputs ≠ [] ∧ shape out = shape inputs) ∧
  (∀ k lead, reverse (shape inputs) = k :: lead →
     (∀ w b, has_param fr (dl_name self) "w" w → shape w = [k] →
        (dl_with_bias self = true →
         has_param fr (dl_name self) "b" b ∧ shape b = [k]) →
        ∃ out, DiagonalLinear_call self inputs dt fr = Ok (out, fr) ∧
               shape out = shape inputs) ∧
     (dl_w_init self = None → dl_b_init self = zeros_dtype →
      is_floating dt = true → fr_frozen fr = false → is_Some (fr_rng fr) →
      fr_params fr !! dl_name self = None →
      ∃ out fr', DiagonalLinear_call self inputs dt fr = Ok (out, fr') ∧
                 shape out = shape inputs) ∧
     (∀ w, has_param fr (dl_name self) "w" w → shape w ≠ [k] →
        DiagonalLinear_call self inputs dt fr = Raise ValueError) ∧
     (lacks_param fr (dl_name self) "w" → fr_frozen fr = true →
        DiagonalLinear_call self inputs dt fr = Raise ValueError) ∧
     (lacks_param fr (dl_name self) "w" → fr_frozen fr = false →
      dl_w_init self = None → is_floating dt = false →
        DiagonalLinear_call self inputs dt fr = Raise ValueError) ∧
     (∀ w, has_param fr (dl_name self) "w" w → shape w = [k] →
        dl_with_bias self = true →
        (∃ b, has_param fr (dl_name self) "b" b ∧ shape b ≠ [k]) ∨
        (lacks_param fr (dl_name self) "b" ∧ fr_frozen fr = true) →
        DiagonalLinear_call self inputs dt fr = Raise ValueError)).
Proof.
  split; [apply DiagonalLinear_call_scalar|]. split.
  { intros out fr' Hcall.
    by apply DiagonalLinear_call_ok_shape in Hcall as (? & ? & _). }
  intros k lead Hrev. split; [|split; [|split; [|split; [|split]]]].
  - intros w b Hw Hsw Hb.
    destruct (DiagonalLinear_call_delivered self inputs dt fr k lead w fr Hrev)
      as (out & fr' & Hcall & Hnb & Hwb).
    { by apply get_parameter_stored. }
    { intros Hbias. destruct (Hb Hbias) as [Hb' Hsb]. exists b, fr.
      by apply get_parameter_stored. }
    assert (fr' = fr) as ->.
    { destruct (dl_with_bias self) eqn:Hbias; [|by apply Hnb].
      destruct (Hb eq_refl) as [Hb' Hsb]. apply (Hwb b fr); [|done].
      by apply get_parameter_stored. }
    exists out. split; [done|].
    by apply DiagonalLinear_call_ok_shape in Hcall as (_ & ? & _).
  - intros Hwi Hbi Hfl Hfz [rng Hrng] Hnone.
    destruct (rng_split rng) as [rng' key] eqn:Hsplit.
    destruct (DiagonalLinear_call_delivered self inputs dt fr k lead
                (Tensor [k] ((λ i, 1 / sqrt (INR k) * truncated_normal key i)%R
                               <$> seq 0 (numel [k])))
                (Frame (set_param (dl_name self) "w"
                          (Tensor [k] ((λ i, 1 / sqrt (INR k) * truncated_normal key i)%R
                                         <$> seq 0 (numel [k])))
                          (fr_params fr))
                       (Some rng') (fr_frozen fr) (fr_names fr)) Hrev)
      as (out & fr' & Hcall & _).
    { rewrite Hwi. unfold get_parameter. rewrite Hnone, Hfz. cbn [mbind option_bind].
      cbn [default]. unfold TruncatedNormal_dtype. rewrite Hfl.
      unfold TruncatedNormal, next_rng_key, mbind, Hk_bind. rewrite Hrng, Hsplit.
      unfold mret, Hk_ret. cbn [shape fr_params fr_rng fr_frozen fr_names].
      rewrite decide_True by done. by rewrite ?Hfz. }
    { intros _. rewrite Hbi. unfold get_parameter, set_param. cbn [fr_params fr_frozen].
      rewrite Hnone. cbn [default]. rewrite lookup_insert_eq. cbn [mbind option_bind].
      rewrite lookup_insert_ne by done. rewrite lookup_empty, Hfz.
      unfold zeros_dtype, zeros, mret, Hk_ret, jnp_zeros.
      cbn [shape fr_params fr_rng fr_frozen fr_names].
      rewrite decide_True by done. by eexists _, _. }
    exists out, fr'. split; [done|].
    by apply DiagonalLinear_call_ok_shape in Hcall as (_ & ? & _).
  - intros w Hw Hsw. eapply DiagonalLinear_call_w_raises; [done|].
    by apply (get_parameter_other_shape _ _ _ _ _ w).
  - intros Hw Hfz. eapply DiagonalLinear_call_w_raises; [done|].
    by apply get_parameter_missing_frozen.
  - intros Hw Hfz Hwi Hfl. eapply DiagonalLinear_call_w_raises; [done|].
    apply get_parameter_missing_init_raises; [done..|].
    rewrite Hwi. cbn [default]. unfold TruncatedNormal_dtype. by rewrite Hfl.
  - intros w Hw Hsw Hbias [(b & Hb & Hsb)|[Hb Hfz]].
    + eapply DiagonalLinear_call_b_raises; [done..|].
      by apply (get_parameter_other_shape _ _ _ _ _ b).
    + eapply DiagonalLinear_call_b_raises; [done..|].
      by apply get_parameter_missing_frozen.
Qed.
End DiagonalLinearFacts.


(** ** Dictionaries in sorted key order *)

Section Items.
Context {A : Type}.
Implicit Types m : gmap string A.

Lemma sorted_keys_perm m : sorted_keys m ≡ₚ elements (dom m).
Proof. apply merge_sort_Permutation. Qed.

Lemma elem_of_sorted_keys m k : k ∈ sorted_keys m ↔ is_Some (m !! k).
Proof. by rewrite sorted_keys_perm, elem_of_elements, elem_of_dom. Qed.

Lemma NoDup_sorted_keys m : NoDup (sorted_keys m).
Proof. rewrite sorted_keys_perm. apply NoDup_elements. Qed.

Lemma Sorted_sorted_keys m : Sorted String.le (sorted_keys m).
Proof. apply (Sorted_merge_sort _). Qed.

Lemma omap_lookup_fst m (l : list string) :
  Forall (λ k, is_Some (m !! k)) l →
  (omap (λ k, (k,.) <$> m !! k) l).*1 = l.
Proof.
  induction 1 as [|k l [v Hv] _ IH]; [done|].
  simpl. rewrite Hv. simpl. f_equal. exact IH.
Qed.

Lemma items_fst m : (items m).*1 = sorted_keys m.
Proof.
  apply omap_lookup_fst, Forall_forall. intros k. apply elem_of_sorted_keys.
Qed.

Lemma NoDup_items_fst m : NoDup (items m).*1.
Proof. rewrite items_fst. apply NoDup_sorted_keys. Qed.

Lemma elem_of_items m k v : (k, v) ∈ items m ↔ m !! k = Some v.
Proof.
  unfold items. rewrite list_elem_of_omap. split.
  - intros (k' & _ & Hk'). destruct (m !! k') eqn:E; simplify_eq/=. done.
  - intros Hv. exists k. split; [|by rewrite Hv].
    apply elem_of_sorted_keys. eauto.
Qed.

Lemma list_to_map_items m : list_to_map (items m) = m.
Proof.
  apply map_eq. intros k. apply option_eq. intros v.
  rewrite <- elem_of_list_to_map by apply NoDup_items_fst.
  apply elem_of_items.
Qed.

Lemma length_items m : length (items m) = length (sorted_keys m).
Proof. by rewrite <- items_fst, length_fmap. Qed.
End Items.

Lemma sorted_keys_fmap {A B} (f : A → B) (m : gmap string A) :
  sorted_keys (f <$> m) = sorted_keys m.
Proof. unfold sorted_keys. by rewrite dom_fmap_L. Qed.

Lemma items_fmap {A B} (f : A → B) (m : gmap string A) :
  items (f <$> m) = (λ p, (p.1, f p.2)) <$> items m.
Proof.
  unfold items. rewrite sorted_keys_fmap.
  induction (sorted_keys m) as [|k l IH]; [done|].
  simpl. rewrite lookup_fmap. destruct (m !! k); simpl; [f_equal|]; exact IH.
Qed.

(** [dict_mapM] keeps the keys and maps every value. *)
Lemma dict_mapM_ok {A B} (f : string → A → result B) (d : gmap string A) d' :
  dict_mapM f d = Ok d' →
  ∀ k, match d !! k with
       | Some v => ∃ y, f k v = Ok y ∧ d' !! k = Some y
       | None => d' !! k = None
       end.
Proof.
  unfold dict_mapM. intros (l & Hl & ->)%result_fmap_ok.
  apply mapM_result_ok in Hl.
  assert (Hfst : l.*1 = (items d).*1).
  { clear -Hl. induction Hl as [|p q ps qs Hpq _ IH]; [done|].
    rewrite !fmap_cons. f_equal; [|exact IH].
    apply result_fmap_ok in Hpq as (y & _ & ->). done. }
  assert (Hnd : NoDup l.*1) by (rewrite Hfst; apply NoDup_items_fst).
  intros k. destruct (d !! k) as [v|] eqn:Hk.
  - apply elem_of_items in Hk.
    apply list_elem_of_lookup in Hk as [i Hi].
    destruct (Forall2_lookup_l _ _ _ _ _ Hl Hi) as (q & Hq & Hpq).
    apply result_fmap_ok in Hpq as (y & Hy & ->). simpl in *.
    exists y. split; [done|].
    apply elem_of_list_to_map; [done|]. by eapply list_elem_of_lookup_2.
  - apply not_elem_of_list_to_map. rewrite Hfst, items_fst.
    rewrite elem_of_sorted_keys, Hk. by intros [? ?].
Qed.

Lemma dict_mapM_total {A B} (f : string → A → result B) (d : gmap string A) :
  (∀ k v, d !! k = Some v → is_ok (f k v)) → is_ok (dict_mapM f d).
Proof.
  intros Hf. unfold dict_mapM.
  assert (Hall : Forall (λ p, is_ok (f p.1 p.2)) (items d)).
  { apply Forall_forall. intros [k v] Hkv%elem_of_items. by apply Hf. }
  induction Hall as [|[k v] l Hkv _ IH]; [done|].
  simpl in *. destruct (f k v); [|done]. simpl.
  destruct (mapM _ l); [|done]. done.
Qed.

(** ** scale_fn *)

Lemma scale_fn_weight module_name value fan_in rest :
  wf value → shape value = fan_in :: rest →
  scale_fn module_name "w" value =
    Ok (Tensor (shape value) ((λ v, v / sqrt (INR fan_in))%R <$> data value)).
Proof.
  intros Hwf Hs. unfold scale_fn. rewrite decide_True by done. rewrite Hs.
  unfold jnp_div, jnp_sqrt, un_op. simpl.
  change (Tensor [] [sqrt (INR fan_in)]) with (scalar (sqrt (INR fan_in))).
  rewrite bin_op_scalar_r by done. by rewrite Hs.
Qed.

Lemma scale_fn_other module_name name value :
  name ≠ "w" → scale_fn module_name name value = Ok value.
Proof. intros Hn. unfold scale_fn. by rewrite decide_False. Qed.

(** C2. When scaling is enabled hyper_fn maps scale_fn over the generated
    parameters: in the result every parameter named 'w' is the generated
    tensor with each element divided by the square root of its first
    dimension, every parameter with another name (the biases 'b') is the
    generated tensor itself, and no parameter is added or dropped.  The
    map succeeds as soon as every weight has a first dimension. *)
Theorem C2_scale_fn_scales_weights_only (generated_params : Params) :
  (∀ module_name name value,
     generated_params !! module_name ≫= (.!! name) = Some value → wf value) →
  (∀ module_name value,
     generated_params !! module_name ≫= (.!! "w") = Some value → shape value ≠ []) →
  ∃ scaled : Params,
    hk_map scale_fn generated_params = Ok scaled ∧
    ∀ module_name name,
      match generated_params !! module_name ≫= (.!! name) with
      | None => scaled !! module_name ≫= (.!! name) = None
      | Some value =>
          if decide (name = "w") then
            ∃ fan_in rest, shape value = fan_in :: rest ∧
              scaled !! module_name ≫= (.!! name) =
                Some (Tensor (shape value)
                        ((λ v, v / sqrt (INR fan_in))%R <$> data value))
          else scaled !! module_name ≫= (.!! name) = Some value
      end.
Proof.
  intros Hwf Hw.
  assert (Hok : is_ok (hk_map scale_fn generated_params)).
  { apply dict_mapM_total. intros m d Hd. apply dict_mapM_total.
    intros name value Hv. unfold scale_fn. case_decide; [subst|done].
    specialize (Hw m value). specialize (Hwf m "w" value).
    rewrite Hd in Hw, Hwf. simpl in Hw, Hwf.
    destruct (shape value) as [|fan_in rest] eqn:Hs; [by apply Hw|].
    unfold jnp_div, jnp_sqrt, un_op. simpl.
    change (Tensor [] [sqrt (INR fan_in)]) with (scalar (sqrt (INR fan_in))).
    by rewrite bin_op_scalar_r by auto. }
  destruct (hk_map scale_fn generated_params) as [scaled|] eqn:Hmap; [|done].
  exists scaled. split; [done|]. intros m name.
  pose proof (dict_mapM_ok _ _ _ Hmap m) as Hm.
  destruct (generated_params !! m) as [d|] eqn:Hd; simpl.
  - destruct Hm as (d' & Hd' & ->). simpl.
    pose proof (dict_mapM_ok _ _ _ Hd' name) as Hn.
    destruct (d !! name) as [value|] eqn:Hv; [|done].
    destruct Hn as (y & Hy & ->).
    specialize (Hw m value). specialize (Hwf m name value).
    rewrite Hd in Hw, Hwf. simpl in Hw, Hwf.
    case_decide as Hname.
    + subst name. destruct (shape value) as [|fan_in rest] eqn:Hs; [by destruct Hw|].
      exists fan_in, rest. split; [done|].
      rewrite (scale_fn_weight _ _ fan_in rest) in Hy by auto.
      rewrite Hs in Hy. congruence.
    + rewrite scale_fn_other in Hy by done. congruence.
  - by rewrite Hm.
Qed.

(** ** PriorMLPIndependentLayers *)

Section PriorMLPFacts.
Context `{Rng}.

Lemma mapM_Hk_ok {A B} (P : A → B → Prop) (f : A → Hk B) :
  (∀ x fr y fr', f x fr = Ok (y, fr') → P x y) →
  ∀ l fr ys fr', mapM f l fr = Ok (ys, fr') → Forall2 P l ys.
Proof.
  intros Hf. induction l as [|x l IH]; intros fr ys fr' Hm.
  - injection Hm as <- _. constructor.
  - simpl in Hm. apply Hk_bind_ok in Hm as (y & fr1 & Hy & Hm).
    apply Hk_bind_ok in Hm as (ys' & fr2 & Hys & Hm).
    injection Hm as <- _. constructor; eauto.
Qed.

Lemma HyperLinear_new_ok output_size index_dim_per_layer ws bs fb name fr self fr' :
  HyperLinear_new output_size index_dim_per_layer ws bs fb name fr = Ok (self, fr') →
  hl_output_size self = output_size ∧
  hl_index_dim_per_layer self = index_dim_per_layer.
Proof.
  unfold HyperLinear_new. intros (n & fr1 & _ & Hm)%Hk_bind_ok.
  by injection Hm as <- _.
Qed.

(** What the constructor records. *)
Lemma PriorMLPIndependentLayers_new_ok output_sizes index_dim ws bs fb name
    fr self fr' :
  PriorMLPIndependentLayers_new output_sizes index_dim ws bs fb name fr
    = Ok (self, fr') →
  pm_num_layers self = length output_sizes ∧
  pm_index_dim self = index_dim ∧
  (if decide (index_dim < length output_sizes)
   then Ok (pm_layers_indices self)
        = Ok (replicate (length output_sizes) (arange index_dim))
   else Ok (pm_layers_indices self)
        = array_split (arange index_dim) (length output_sizes)) ∧
  Forall2 (λ p layer, hl_index_dim_per_layer layer = len p.1 ∧
                      hl_output_size layer = p.2)
    (zip (pm_layers_indices self) output_sizes) (pm_layers self).
Proof.
  unfold PriorMLPIndependentLayers_new.
  intros (n & fr1 & _ & Hm)%Hk_bind_ok.
  apply Hk_bind_ok in Hm as (li & fr2 & Hli & Hm).
  apply Hk_bind_ok in Hm as (layers & fr3 & Hlayers & Hm).
  injection Hm as <- _. simpl. repeat split.
  - case_decide.
    + by injection Hli as <- _.
    + apply lift_ok in Hli as [-> _]. done.
  - eapply mapM_Hk_ok; [|exact Hlayers].
    intros p fr4 y fr5 Hy. apply HyperLinear_new_ok in Hy as [? ?]. done.
Qed.

Lemma PriorMLP_loop_forward num_layers index_layers layers :
  ∀ i out fr,
    i + length layers ≤ length index_layers →
    PriorMLP_loop num_layers index_layers i layers out fr =
      forward_with num_layers i (zip layers (drop i index_layers)) out fr.
Proof.
  induction layers as [|layer layers IH]; intros i out fr Hlen; [done|].
  simpl in *. destruct (index_layers !! i) as [z|] eqn:Hz.
  - rewrite (drop_S _ _ _ Hz). simpl.
    unfold mbind, Hk_bind.
    destruct (HyperLinear_call layer out z fr) as [[o fr1]|]; [|done].
    apply IH. lia.
  - apply lookup_ge_None in Hz. lia.
Qed.
End PriorMLPFacts.

Lemma zip_replicate_r {A B} (l : list A) (y : B) n :
  length l ≤ n → zip l (replicate n y) = (., y) <$> l.
Proof.
  revert n. induction l as [|x l IH]; intros n Hn; [done|].
  destruct n as [|n]; simpl in *; [lia|]. f_equal. apply IH. lia.
Qed.

Section PriorMLPWhole.
Context `{Rng}.

(** C10. When the index dimension is smaller than the number of layers,
    PriorMLPIndependentLayers hands the whole index z, unsliced, to each
    of its layers (every layer is built for all index_dim coordinates and
    is called with z itself); z is split with array_split only when
    index_dim is at least the number of layers. *)
Theorem C10_whole_index_for_every_layer
    (output_sizes : list nat) (index_dim : nat) (ws bs fb : R) (name : string)
    (fr : frame) (self : PriorMLPIndependentLayers) (fr' : frame) :
  PriorMLPIndependentLayers_new output_sizes index_dim ws bs fb name fr
    = Ok (self, fr') →
  (index_dim < length output_sizes →
     length (pm_layers self) = length output_sizes ∧
     Forall (λ layer, hl_index_dim_per_layer layer = index_dim) (pm_layers self) ∧
     ∀ x z,
       index_layers_of self z = Ok (replicate (length output_sizes) z) ∧
       ∀ fr0, PriorMLPIndependentLayers_call self x z fr0 =
                forward_with (length output_sizes) 0 ((., z) <$> pm_layers self) x fr0) ∧
  (¬ index_dim < length output_sizes →
     ∀ z, index_layers_of self z = array_split z (length output_sizes)).
Proof.
  intros (Hn & Hd & Hli & Hlayers)%PriorMLPIndependentLayers_new_ok.
  split.
  - intros Hlt. rewrite decide_True in Hli by done. injection Hli as Hli.
    rewrite Hli in Hlayers.
    assert (Hlen : length (pm_layers self) = length output_sizes).
    { apply Forall2_length in Hlayers. rewrite <- Hlayers.
      rewrite length_zip_with, length_replicate. lia. }
    split; [done|]. split.
    + apply Forall_forall. intros layer Hin.
      apply list_elem_of_lookup in Hin as [i Hi].
      destruct (Forall2_lookup_r _ _ _ _ _ Hlayers Hi) as ([li os] & Hp & Hidx & _).
      apply lookup_zip_with_Some in Hp as (? & ? & [= <- <-] & Hrep & _).
      apply lookup_replicate in Hrep as [-> _]. done.
    + intros x z.
      assert (Hil : index_layers_of self z = Ok (replicate (length output_sizes) z)).
      { unfold index_layers_of. rewrite Hn, Hd. by rewrite decide_True. }
      split; [done|]. intros fr0.
      unfold PriorMLPIndependentLayers_call. rewrite Hil.
      rewrite (Hk_bind_eq _ _ _ _ _ (lift_eq _ _)).
      rewrite PriorMLP_loop_forward by (rewrite length_replicate; lia).
      rewrite Hn, drop_0. by rewrite zip_replicate_r by lia.
  - intros Hge z. unfold index_layers_of. rewrite Hn, Hd.
    by rewrite decide_False.
Qed.
End PriorMLPWhole.

(** ** array_split *)

Lemma sum_nat_app l1 l2 : sum_nat (l1 ++ l2) = sum_nat l1 + sum_nat l2.
Proof. induction l1 as [|a l1 IH]; simpl; [done | rewrite IH; lia]. Qed.

Lemma sum_nat_replicate n a : sum_nat (replicate n a) = n * a.
Proof. induction n as [|n IH]; simpl; [done | rewrite IH; lia]. Qed.

Lemma length_section_sizes d n : n ≠ 0 → length (section_sizes d n) = n.
Proof.
  intros Hn. unfold section_sizes. rewrite length_app, !length_replicate.
  pose proof (Nat.mod_upper_bound d n Hn). lia.
Qed.

Lemma sum_section_sizes d n : n ≠ 0 → sum_nat (section_sizes d n) = d.
Proof.
  intros Hn. unfold section_sizes.
  rewrite sum_nat_app, !sum_nat_replicate.
  pose proof (Nat.mod_upper_bound d n Hn). pose proof (Nat.div_mod_eq d n). nia.
Qed.

Lemma zip_with_slice0_chunks t acc sizes :
  zip_with (slice0 t) (acc :: cumsum_from acc sizes) (cumsum_from acc sizes)
  = chunks t acc sizes.
Proof.
  revert acc. induction sizes as [|s sizes IH]; intros acc; [done|].
  simpl. f_equal. apply IH.
Qed.

Lemma array_split_chunks t d rest n :
  n ≠ 0 → shape t = d :: rest →
  array_split t n = Ok (chunks t 0 (section_sizes d n)).
Proof.
  intros Hn Hs. unfold array_split. rewrite Hs, decide_False by done.
  f_equal. apply zip_with_slice0_chunks.
Qed.

Lemma length_chunks t off sizes : length (chunks t off sizes) = length sizes.
Proof. revert off. induction sizes; intros; simpl; [done | by f_equal]. Qed.

Lemma slice0_vector t d off s :
  shape t = [d] → off + s ≤ d →
  slice0 t off (off + s) = Tensor [s] (take s (drop off (data t))).
Proof.
  intros Hs Hle. unfold slice0. rewrite Hs. simpl.
  rewrite !Nat.mul_1_r. by replace ((off + s) `min` d - off) with s by lia.
Qed.

Lemma concat_chunks t d sizes off :
  shape t = [d] → off + sum_nat sizes ≤ d →
  concat (data <$> chunks t off sizes) = take (sum_nat sizes) (drop off (data t)).
Proof.
  intros Hs. revert off. induction sizes as [|s sizes IH]; intros off Hle; simpl in *.
  - done.
  - rewrite (slice0_vector _ d) by (done || lia). simpl.
    rewrite IH by lia. rewrite <- drop_drop. apply take_take_drop.
Qed.

Lemma chunks_lookup t d sizes : ∀ off i piece,
  shape t = [d] → off + sum_nat sizes ≤ d →
  chunks t off sizes !! i = Some piece →
  ∃ s, sizes !! i = Some s ∧
       piece = Tensor [s] (take s (drop (off + sum_nat (take i sizes)) (data t))).
Proof.
  induction sizes as [|s sizes IH]; intros off i piece Hs Hle Hi; [done|].
  simpl in *. destruct i as [|i]; simpl in *.
  - injection Hi as <-. exists s. split; [done|].
    rewrite (slice0_vector _ d) by (done || lia). by rewrite Nat.add_0_r.
  - destruct (IH (off + s) i piece) as (s' & Hs' & ->); [done | lia | done |].
    exists s'. split; [done|]. by rewrite Nat.add_assoc.
Qed.


Lemma sum_nat_take_S (l : list nat) i s :
  l !! i = Some s → sum_nat (take (S i) l) = sum_nat (take i l) + s.
Proof.
  revert i. induction l as [|a l IH]; intros [|i] Hi; simplify_eq/=; [lia|].
  rewrite (IH i) by done. lia.
Qed.

Lemma sum_nat_take_mono (l : list nat) i j :
  i ≤ j → sum_nat (take i l) ≤ sum_nat (take j l).
Proof.
  intros Hij. replace j with (i + (j - i)) by lia.
  rewrite <- take_take_drop, sum_nat_app. lia.
Qed.


Lemma elem_of_arange_slice c s a d :
  c ∈ take s (drop a (data (arange d))) → ∃ p, c = INR p ∧ a ≤ p < a + s.
Proof.
  simpl. rewrite <- fmap_drop, <- fmap_take.
  intros (p & -> & Hp)%list_elem_of_fmap. exists p. split; [done|].
  apply list_elem_of_lookup in Hp as [k Hk].
  apply lookup_take_Some in Hk as [Hk Hks].
  rewrite lookup_drop in Hk. apply lookup_seq in Hk as [-> _]. lia.
Qed.

Lemma chunks_arange_disjoint d sizes i j li lj c :
  sum_nat sizes ≤ d → i < j →
  chunks (arange d) 0 sizes !! i = Some li →
  chunks (arange d) 0 sizes !! j = Some lj →
  c ∈ data li → c ∉ data lj.
Proof.
  intros Hsum Hij Hi Hj Hci Hcj.
  apply (chunks_lookup _ d) in Hi as (si & Hsi & ->); [|done|lia].
  apply (chunks_lookup _ d) in Hj as (sj & Hsj & ->); [|done|lia].
  simpl in Hci, Hcj.
  apply elem_of_arange_slice in Hci as (p & -> & Hp).
  apply elem_of_arange_slice in Hcj as (q & Hpq%INR_eq & Hq). subst q.
  pose proof (sum_nat_take_S _ _ _ Hsi).
  pose proof (sum_nat_take_mono sizes (S i) j ltac:(lia)). lia.
Qed.

Section PriorMLPSplit.
Context `{Rng}.

(** C4 (as amended). When the index dimension is at least the number of
    layers, PriorMLPIndependentLayers cuts the index into consecutive
    slices, one per layer: no index coordinate is associated with two
    different layers, the slices of z put end to end are z, each layer is
    built for the length of its slice, and layer i is called with slice i.
    (With fewer index dimensions than layers every layer receives the
    whole index instead.) *)
Theorem C4_disjoint_slices_when_split
    (output_sizes : list nat) (index_dim : nat) (ws bs fb : R) (name : string)
    (fr : frame) (self : PriorMLPIndependentLayers) (fr' : frame) :
  PriorMLPIndependentLayers_new output_sizes index_dim ws bs fb name fr
    = Ok (self, fr') →
  length output_sizes ≤ index_dim →
  let n := length output_sizes in
  let sizes := section_sizes index_dim n in
  pm_layers_indices self = chunks (arange index_dim) 0 sizes ∧
  layers_indices_disjoint self ∧
  length (pm_layers self) = n ∧
  ∀ z, shape z = [index_dim] → wf z →
    ∃ pieces,
      index_layers_of self z = Ok pieces ∧
      pieces = chunks z 0 sizes ∧
      length pieces = n ∧
      concat (data <$> pieces) = data z ∧
      Forall2 (λ layer piece, shape piece = [hl_index_dim_per_layer layer])
        (pm_layers self) pieces ∧
      ∀ x fr0, PriorMLPIndependentLayers_call self x z fr0 =
                 forward_with n 0 (zip (pm_layers self) pieces) x fr0.
Proof.
  intros Hnew Hle n sizes.
  pose proof Hnew as (Hn & Hd & Hli & Hlayers)%PriorMLPIndependentLayers_new_ok.
  rewrite decide_False in Hli by lia.
  assert (Hn0 : n ≠ 0).
  { intros Hn0. unfold array_split in Hli. cbn [arange shape] in Hli.
    fold n in Hli. by rewrite decide_True in Hli. }
  rewrite (array_split_chunks _ index_dim []) in Hli by done.
  injection Hli as Hli. fold n sizes in Hli.
  assert (Hsum : sum_nat sizes = index_dim) by (by apply sum_section_sizes).
  assert (Hlsz : length sizes = n) by (by apply length_section_sizes).
  assert (Hlen : length (pm_layers self) = n).
  { apply Forall2_length in Hlayers. rewrite <- Hlayers, Hli.
    rewrite length_zip_with, length_chunks. fold n. lia. }
  split; [done|]. split; [|split; [done|]].
  - intros i j li lj c Hij Hi Hj Hci Hcj. rewrite Hli in Hi, Hj.
    destruct (decide (i < j)).
    + by eapply (chunks_arange_disjoint index_dim sizes i j li lj c); try lia.
    + by eapply (chunks_arange_disjoint index_dim sizes j i lj li c); try lia.
  - intros z Hsz Hwfz. exists (chunks z 0 sizes).
    assert (Hil : index_layers_of self z = Ok (chunks z 0 sizes)).
    { unfold index_layers_of. rewrite Hn, Hd. rewrite decide_False by lia.
      by apply (array_split_chunks _ index_dim []). }
    split; [done|]. split; [done|]. split; [by rewrite length_chunks|]. split.
    { rewrite (concat_chunks _ index_dim) by (done || lia).
      rewrite drop_0, take_ge; [done|].
      rewrite Hwfz, Hsz, Hsum. simpl. lia. }
    split.
    { apply Forall2_same_length_lookup_2; [by rewrite length_chunks, Hlen|].
      intros i layer piece Hlayer Hpiece.
      destruct (Forall2_lookup_r _ _ _ _ _ Hlayers Hlayer) as ([li os] & Hp & Hidx & _).
      apply lookup_zip_with_Some in Hp as (? & ? & [= <- <-] & Hlii & _).
      rewrite Hli in Hlii. simpl in Hidx. rewrite Hidx.
      apply (chunks_lookup _ index_dim) in Hlii as (s & Hs & ->); [|done|lia].
      apply (chunks_lookup _ index_dim) in Hpiece as (s' & Hs' & ->); [|done|lia].
      unfold len. simpl. congruence. }
    intros x fr0. unfold PriorMLPIndependentLayers_call. rewrite Hil.
    rewrite (Hk_bind_eq _ _ _ _ _ (lift_eq _ _)).
    rewrite PriorMLP_loop_forward by (rewrite length_chunks; lia).
    by rewrite Hn, drop_0.
Qed.
End PriorMLPSplit.

(** ** Flattening and unflattening trees *)

Section Trees.
Context {A : Type}.

Lemma sorted_keys_unique (m : gmap string A) ks :
  keys_wf ks → (∀ k, k ∈ ks ↔ is_Some (m !! k)) → sorted_keys m = ks.
Proof.
  intros [Hnd Hs] Hks. apply (Sorted_unique String.le).
  - apply Sorted_sorted_keys.
  - done.
  - apply NoDup_Permutation; [apply NoDup_sorted_keys | done |].
    intros k. by rewrite elem_of_sorted_keys, Hks.
Qed.

Lemma keys_wf_sorted_keys (m : gmap string A) : keys_wf (sorted_keys m).
Proof. split; [apply NoDup_sorted_keys | apply Sorted_sorted_keys]. Qed.

Lemma assoc_eq_of_fst (l1 l2 : list (string * A)) :
  l1.*1 = l2.*1 → NoDup l1.*1 → (∀ k v, (k, v) ∈ l1 → (k, v) ∈ l2) → l1 = l2.
Proof.
  revert l2. induction l1 as [|[k v] l1 IH]; intros l2 Hfst Hnd Hin;
    destruct l2 as [|[k2 v2] l2]; simpl in *; try done.
  injection Hfst as -> Hfst.
  apply NoDup_cons in Hnd as [Hk Hnd].
  assert (Hk2 : ∀ v', (k2, v') ∉ l2).
  { intros v' Hv'. apply Hk. rewrite Hfst. apply list_elem_of_fmap. by exists (k2, v'). }
  assert (v = v2) as ->.
  { pose proof (Hin k2 v ltac:(left)) as [Heq|Hv]%elem_of_cons; [by simplify_eq|].
    by destruct (Hk2 v). }
  f_equal. apply IH; [done..|].
  intros k' v' Hkv.
  pose proof (Hin k' v' ltac:(by right)) as [Heq|Hv]%elem_of_cons; [|done].
  simplify_eq. destruct Hk. apply list_elem_of_fmap. by exists (k2, v2).
Qed.

Lemma items_list_to_map (l : list (string * A)) :
  keys_wf l.*1 → items (list_to_map l) = l.
Proof.
  intros Hwf. pose proof Hwf as [Hnd _].
  assert (Hk : sorted_keys (list_to_map l : gmap string A) = l.*1).
  { apply sorted_keys_unique; [done|]. intros k.
    rewrite <- elem_of_dom, dom_list_to_map_L, elem_of_list_to_set. done. }
  apply assoc_eq_of_fst.
  - by rewrite items_fst.
  - apply NoDup_items_fst.
  - intros k v Hkv%elem_of_items. by apply elem_of_list_to_map.
Qed.

End Trees.

Section Unflatten.
Context {A : Type}.

Lemma num_leaves_cons m ks td : num_leaves ((m, ks) :: td) = length ks + num_leaves td.
Proof. done. Qed.

Lemma tree_unflatten_entries td (ls : list A) t :
  tree_unflatten td ls = Ok t →
  t = list_to_map (entries td ls) ∧ length ls = num_leaves td.
Proof.
  revert ls t. induction td as [|[m ks] td IH]; intros ls t; simpl.
  - destruct ls; [|done]. by intros [= <-].
  - case_decide as Hlen; [|done].
    intros (rest & Hrest & [= <-])%result_bind_ok.
    apply IH in Hrest as [-> Hl]. split; [done|].
    rewrite length_drop in Hl. rewrite num_leaves_cons. lia.
Qed.

Lemma tree_unflatten_total td (ls : list A) :
  length ls = num_leaves td → is_ok (tree_unflatten td ls).
Proof.
  revert ls. induction td as [|[m ks] td IH]; intros ls Hl; simpl.
  - by destruct ls.
  - rewrite num_leaves_cons in Hl. rewrite decide_True by lia.
    specialize (IH (drop (length ks) ls)).
    destruct (tree_unflatten td (drop (length ks) ls)); simpl; [done|].
    apply IH. rewrite length_drop. lia.
Qed.

Lemma entries_fst td (ls : list A) : (entries td ls).*1 = td.*1.
Proof.
  revert ls. induction td as [|[m ks] td IH]; intros ls; [done|].
  simpl. f_equal. apply IH.
Qed.

Lemma entries_structure td (ls : list A) :
  Forall (λ e, keys_wf e.2) td → length ls = num_leaves td →
  (λ '(m, d), (m, sorted_keys d)) <$> entries td ls = td ∧
  ('(_, d) ← entries td ls; (items d).*2) = ls.
Proof.
  revert ls. induction td as [|[m ks] td IH]; intros ls Hwf Hl.
  - by destruct ls.
  - apply Forall_cons in Hwf as [Hks Hwf]. rewrite num_leaves_cons in Hl.
    simpl in Hks. cbn [entries]. rewrite fmap_cons, bind_cons.
    destruct (IH (drop (length ks) ls)) as [IH1 IH2]; [done | rewrite length_drop; lia |].
    assert (Hit : items (list_to_map (zip ks (take (length ks) ls)) : gmap string A)
                  = zip ks (take (length ks) ls)).
    { apply items_list_to_map. by rewrite fst_zip by (rewrite length_take; lia). }
    split.
    + f_equal; [|exact IH1]. f_equal.
      rewrite <- items_fst, Hit. apply fst_zip. rewrite length_take. lia.
    + rewrite Hit, snd_zip by (rewrite length_take; lia).
      rewrite IH2. apply take_drop.
Qed.

Lemma tree_unflatten_flatten td (ls : list A) t :
  treedef_wf td → tree_unflatten td ls = Ok t →
  tree_structure t = td ∧ tree_leaves t = ls.
Proof.
  intros [Hk Hwf] [-> Hl]%tree_unflatten_entries.
  unfold tree_structure, tree_leaves.
  rewrite items_list_to_map by (by rewrite entries_fst).
  by apply entries_structure.
Qed.

Lemma tree_unflatten_assoc (l : list (string * gmap string A)) :
  tree_unflatten ((λ '(m, d), (m, sorted_keys d)) <$> l)
                 ('(_, d) ← l; (items d).*2)
  = Ok (list_to_map l).
Proof.
  induction l as [|[m d] l IH]; [done|].
  assert (Hl : length (sorted_keys d) = length (items d).*2).
  { by rewrite length_fmap, length_items. }
  rewrite fmap_cons, bind_cons. cbn [tree_unflatten].
  rewrite length_app, decide_True by lia.
  rewrite Hl, drop_app_length, take_app_length, IH. simpl.
  rewrite <- items_fst, zip_fst_snd, list_to_map_items. done.
Qed.

Lemma tree_flatten_unflatten (t : tree A) :
  tree_unflatten (tree_structure t) (tree_leaves t) = Ok t.
Proof.
  unfold tree_structure, tree_leaves. rewrite tree_unflatten_assoc.
  by rewrite list_to_map_items.
Qed.

Lemma tree_structure_fst (t : tree A) : (tree_structure t).*1 = sorted_keys t.
Proof.
  unfold tree_structure. rewrite <- list_fmap_compose, <- items_fst.
  apply list_fmap_ext. by intros i [m d] _.
Qed.

Lemma treedef_wf_structure (t : tree A) : treedef_wf (tree_structure t).
Proof.
  split.
  - rewrite tree_structure_fst. apply keys_wf_sorted_keys.
  - apply Forall_fmap, Forall_forall. intros [m d] _. apply keys_wf_sorted_keys.
Qed.

Lemma length_tree_leaves (t : tree A) :
  length (tree_leaves t) = num_leaves (tree_structure t).
Proof.
  pose proof (tree_flatten_unflatten t) as Hu.
  by apply tree_unflatten_entries in Hu as [_ ?].
Qed.
End Unflatten.

Lemma tree_unflatten_fmap {A B} (f : A → B) td (ls : list A) t :
  tree_unflatten td ls = Ok t → tree_unflatten td (f <$> ls) = Ok (tree_map f t).
Proof.
  revert ls t. induction td as [|[m ks] td IH]; intros ls t; simpl.
  - destruct ls; [|done]. intros [= <-]. unfold tree_map. by rewrite fmap_empty.
  - rewrite length_fmap. case_decide; [|done].
    intros (rest & Hrest & [= <-])%result_bind_ok.
    rewrite <- fmap_drop, (IH _ _ Hrest). simpl. f_equal.
    unfold tree_map. rewrite fmap_insert. f_equal.
    rewrite <- fmap_take, <- list_to_map_fmap. f_equal.
    rewrite zip_with_fmap_r, zip_with_zip. apply list_fmap_ext. by intros i [k v] _.
Qed.

Lemma tree_structure_map {A B} (f : A → B) (t : tree A) :
  tree_structure (tree_map f t) = tree_structure t.
Proof.
  unfold tree_structure, tree_map. rewrite items_fmap, <- list_fmap_compose.
  apply list_fmap_ext. intros i [m d] _. simpl. by rewrite sorted_keys_fmap.
Qed.

Lemma tree_leaves_map {A B} (f : A → B) (t : tree A) :
  tree_leaves (tree_map f t) = f <$> tree_leaves t.
Proof.
  unfold tree_leaves, tree_map. rewrite items_fmap.
  induction (items t) as [|[m d] l IH]; [done|].
  rewrite fmap_cons, !bind_cons, fmap_app, IH. f_equal. simpl.
  rewrite items_fmap, <- !list_fmap_compose. done.
Qed.

Lemma same_structure_of_shapes (t1 t2 : Params) :
  tree_map shape t1 = tree_map shape t2 → same_shapes t1 t2.
Proof.
  intros Hs. split; [|done].
  by rewrite <- (tree_structure_map shape t1), Hs, tree_structure_map.
Qed.

Lemma reshape_shape t s t' : reshape t s = Ok t' → shape t' = s.
Proof. unfold reshape. case_decide; [|done]. by intros [= <-]. Qed.

(** Line 151: whatever the flat output, when the reshaping succeeds the
    result has the base shapes. *)
Lemma tree_multimap_reshape_shapes (flat_output : Params) (base_shapes : tree (list nat))
    (generated_params : Params) :
  tree_multimap reshape flat_output base_shapes = Ok generated_params →
  tree_map shape generated_params = base_shapes.
Proof.
  unfold tree_multimap. case_decide as Hst; [|done].
  intros (ls & Hls & Hun)%result_bind_ok.
  apply mapM_result_ok in Hls.
  assert (Hlen : length (tree_leaves flat_output) = length (tree_leaves base_shapes)).
  { by rewrite !length_tree_leaves, Hst. }
  assert (Hshapes : shape <$> ls = tree_leaves base_shapes).
  { rewrite <- (snd_zip (tree_leaves flat_output) (tree_leaves base_shapes)) by lia.
    clear -Hls. induction Hls as [|[a s] y l k Hy _ IH]; [done|].
    rewrite !fmap_cons. f_equal; [|exact IH]. by apply reshape_shape in Hy. }
  apply (tree_unflatten_fmap shape) in Hun.
  rewrite Hshapes, Hst, tree_flatten_unflatten in Hun. congruence.
Qed.

Lemma scale_fn_shape module_name name value value' :
  scale_fn module_name name value = Ok value' → shape value' = shape value.
Proof.
  unfold scale_fn. case_decide; [|by intros [= <-]].
  destruct (shape value) as [|fan_in rest] eqn:Hs; [done|].
  intros Hdiv%bin_op_shape. rewrite Hs in Hdiv. simpl in Hdiv.
  rewrite broadcast_shapes_nil_r in Hdiv. congruence.
Qed.

Lemma hk_map_scale_fn_shapes (generated_params scaled : Params) :
  hk_map scale_fn generated_params = Ok scaled →
  tree_map shape scaled = tree_map shape generated_params.
Proof.
  intros Hmap. unfold tree_map. apply map_eq. intros m.
  rewrite !lookup_fmap. pose proof (dict_mapM_ok _ _ _ Hmap m) as Hm.
  destruct (generated_params !! m) as [d|]; [|by rewrite Hm].
  destruct Hm as (d' & Hd' & ->). simpl. f_equal.
  apply map_eq. intros n. rewrite !lookup_fmap.
  pose proof (dict_mapM_ok _ _ _ Hd' n) as Hn.
  destruct (d !! n) as [v|]; [|by rewrite Hn].
  destruct Hn as (y & Hy & ->). simpl. f_equal. by eapply scale_fn_shape.
Qed.

(** ** hypermodel_module *)

Section HypermoduleFacts.
Context `{Rng}.

Lemma hypermodel_module_ok transformed_base dummy_input hyper_torso diag rgp scale enn_ctor :
  hypermodel_module transformed_base dummy_input hyper_torso diag rgp scale = Ok enn_ctor →
  ∃ base_params,
    tr_init transformed_base (PRNGKey 0) dummy_input = Ok base_params ∧
    enn_ctor = hyper_fn transformed_base hyper_torso diag rgp scale
                 (base_shapes_of base_params) (base_shapes_flat_of base_params).
Proof.
  unfold hypermodel_module. intros (bp & Hbp & [= <-])%result_bind_ok. eauto.
Qed.

Lemma generated_params_same_shapes hyper_torso diag base_params index fr
    generated_params fr' :
  generated_params_fn hyper_torso diag (base_shapes_of base_params)
    (base_shapes_flat_of base_params) index fr = Ok (generated_params, fr') →
  same_shapes generated_params base_params.
Proof.
  unfold generated_params_fn. intros (fo & fr1 & _ & Hgp)%Hk_bind_ok.
  apply lift_ok in Hgp as [Hgp _].
  apply same_structure_of_shapes.
  by apply (tree_multimap_reshape_shapes fo).
Qed.

(** What a successful run of [hyper_fn] went through. *)
Lemma hyper_fn_ok transformed_base hyper_torso diag rgp scale base_shapes
    base_shapes_flat inputs index fr out fr' :
  hyper_fn transformed_base hyper_torso diag rgp scale base_shapes base_shapes_flat
    inputs index fr = Ok (out, fr') →
  ∃ generated_params generated_params_scaled,
    generated_params_fn hyper_torso diag base_shapes base_shapes_flat index fr
      = Ok (generated_params, fr') ∧
    (if scale then hk_map scale_fn generated_params else Ok generated_params)
      = Ok generated_params_scaled ∧
    tr_apply transformed_base generated_params_scaled inputs = Ok (parse_net_output out) ∧
    out = (if rgp then
             OutputWithPrior (parse_net_output out)
               {[ "hyper_net_out" := generated_params;
                  "base_net_params" := generated_params_scaled ]}
           else Plain (parse_net_output out)).
Proof.
  unfold hyper_fn. intros (gp & fr1 & Hgp & Hrest)%Hk_bind_ok.
  apply Hk_bind_ok in Hrest as (gps & fr2 & Hgps & Hrest).
  apply Hk_bind_ok in Hrest as (y & fr3 & Hy & Hrest).
  apply lift_ok in Hy as [Hy ->].
  assert (Hsc : (if scale then hk_map scale_fn gp else Ok gp) = Ok gps ∧ fr2 = fr1).
  { destruct scale; [by apply lift_ok in Hgps | by injection Hgps as <- <-]. }
  destruct Hsc as [Hsc ->].
  exists gp, gps. destruct rgp.
  - apply Hk_bind_ok in Hrest as (y' & fr4 & Hy' & Hrest).
    apply lift_ok in Hy' as [Hy' ->]. injection Hrest as <- <-. simpl.
    repeat split; done.
  - injection Hrest as <- <-. simpl. repeat split; done.
Qed.

(** C1. For every index that hyper_fn accepts, the generated parameters,
    and the scaled parameters handed to transformed_base.apply, have the
    tree structure and the per-leaf shapes of the base parameters obtained
    at construction. *)
Theorem C1_generated_params_match_base
    (transformed_base : Transformed) (dummy_input : tensor)
    (hyper_torso : tensor → Hk tensor) (diagonal_linear_hyper rgp scale : bool)
    (enn_ctor : tensor → tensor → Hk Output) :
  hypermodel_module transformed_base dummy_input hyper_torso
    diagonal_linear_hyper rgp scale = Ok enn_ctor →
  ∃ base_params,
    tr_init transformed_base (PRNGKey 0) dummy_input = Ok base_params ∧
    ∀ inputs index fr out fr',
      enn_ctor inputs index fr = Ok (out, fr') →
      ∃ generated_params generated_params_scaled,
        generated_params_fn hyper_torso diagonal_linear_hyper
          (base_shapes_of base_params) (base_shapes_flat_of base_params) index fr
          = Ok (generated_params, fr') ∧
        same_shapes generated_params base_params ∧
        same_shapes generated_params_scaled base_params ∧
        tr_apply transformed_base generated_params_scaled inputs
          = Ok (parse_net_output out).
Proof.
  intros (base_params & Hinit & ->)%hypermodel_module_ok.
  exists base_params. split; [done|].
  intros inputs index fr out fr' (gp & gps & Hgp & Hsc & Happly & _)%hyper_fn_ok.
  exists gp, gps. pose proof (generated_params_same_shapes _ _ _ _ _ _ _ Hgp) as Hss.
  repeat split; try done; try apply Hss.
  - destruct scale; [|by injection Hsc as <-; apply Hss].
    apply hk_map_scale_fn_shapes in Hsc.
    destruct (same_structure_of_shapes gps gp Hsc) as [-> _]. apply Hss.
  - destruct scale; [|by injection Hsc as <-; apply Hss].
    apply hk_map_scale_fn_shapes in Hsc. rewrite Hsc. apply Hss.
Qed.
End HypermoduleFacts.

(** ** The linear hypermodel *)


Section LinearHypermodel.
Context `{Rng}.




















Lemma tree_leaves_base_shapes_flat (base_params : Params) :
  tree_leaves (base_shapes_flat_of base_params)
  = (λ p, numel (shape p)) <$> tree_leaves base_params.
Proof.
  unfold base_shapes_flat_of. by rewrite !tree_leaves_map, <- list_fmap_compose.
Qed.

End LinearHypermodel.

Section HypermodelShapes.
Context `{Rng}.

(** C6. hypermodel_module initialises the base network once, on the dummy
    input with PRNGKey(0), and the module it returns is hyper_fn closed
    over the shapes of those parameters: it does not depend on the init
    function of the base network any more, and every evaluation, whatever
    the inputs, the index and the frame, generates parameters of exactly
    these shapes. *)
Theorem C6_base_shapes_fixed_at_construction
    (transformed_base : Transformed) (dummy_input : tensor)
    (hyper_torso : tensor → Hk tensor) (diagonal_linear_hyper rgp scale : bool)
    (enn_ctor : tensor → tensor → Hk Output) :
  hypermodel_module transformed_base dummy_input hyper_torso
    diagonal_linear_hyper rgp scale = Ok enn_ctor →
  ∃ base_params,
    tr_init transformed_base (PRNGKey 0) dummy_input = Ok base_params ∧
    (∀ init',
       enn_ctor = hyper_fn (mkTransformed init' (tr_apply transformed_base))
                    hyper_torso diagonal_linear_hyper rgp scale
                    (base_shapes_of base_params) (base_shapes_flat_of base_params)) ∧
    ∀ inputs index fr out fr',
      enn_ctor inputs index fr = Ok (out, fr') →
      ∃ generated_params,
        generated_params_fn hyper_torso diagonal_linear_hyper
          (base_shapes_of base_params) (base_shapes_flat_of base_params) index fr
          = Ok (generated_params, fr') ∧
        tree_map shape generated_params = base_shapes_of base_params.
Proof.
  intros (base_params & Hinit & ->)%hypermodel_module_ok.
  exists base_params. split; [done|]. split; [done|].
  intros inputs index fr out fr' (gp & gps & Hgp & _)%hyper_fn_ok.
  exists gp. split; [done|].
  by apply generated_params_same_shapes in Hgp as [_ ?].
Qed.


End HypermodelShapes.

(** ** Networks with an additive prior *)

Lemma sum_with_prior_elementwise out net_out prior prior_scale :
  is_sum_with_prior out net_out prior prior_scale →
  wf net_out → wf prior → shape prior = shape net_out →
  shape out = shape net_out ∧
  ∀ j, j < numel (shape net_out) →
    at_ (data out) j = (at_ (data net_out) j + prior_scale * at_ (data prior) j)%R.
Proof.
  intros (scaled & Hmul & Hadd) Hwfn Hwfp Hs.
  unfold jnp_mul in Hmul. rewrite bin_op_scalar_l in Hmul by done.
  injection Hmul as <-.
  unfold jnp_add in Hadd. rewrite bin_op_same in Hadd by done.
  injection Hadd as <-. split; [done|]. intros j Hj. simpl.
  rewrite at_imap by (by rewrite Hwfn).
  rewrite at_fmap by (by rewrite Hwfp, Hs). done.
Qed.

Section AdditivePrior.
Context `{Rng}.

Lemma EnnWithAdditivePrior_additive enn prior_fn prior_scale :
  additive_prior (EpistemicNetwork_init (EnnWithAdditivePrior enn prior_fn prior_scale))
    enn prior_fn prior_scale.
Proof.
  intros params x z out.
  unfold EpistemicNetwork_init, EnnWithAdditivePrior. cbn [apply].
  intros (net_out & Hnet & Hrest)%result_bind_ok.
  apply result_bind_ok in Hrest as (prior & Hprior & Hrest).
  apply result_bind_ok in Hrest as (scaled & Hscaled & Hrest).
  apply result_bind_ok in Hrest as (sum & Hsum & [= <-]).
  exists net_out, prior.
  assert (Hp : parse_net_output (with_preds net_out sum) = sum) by (by destruct net_out).
  rewrite Hp.
  assert (His : is_sum_with_prior sum (parse_net_output net_out) prior prior_scale)
    by (by exists scaled).
  repeat split; try done; by eapply sum_with_prior_elementwise.
Qed.

Lemma EnnWithAdditivePrior_frozen enn prior_fn prior_scale :
  with_frozen_prior (EpistemicNetwork_init (EnnWithAdditivePrior enn prior_fn prior_scale))
    enn prior_fn prior_scale.
Proof.
  split; [done|]. split; [done|]. split; [done|].
  intros params1 params2 x z out1 out2 H1 H2.
  apply EnnWithAdditivePrior_additive in H1 as (net_out1 & prior & Hn1 & Hp1 & Hs1 & _).
  apply EnnWithAdditivePrior_additive in H2 as (net_out2 & prior' & Hn2 & Hp2 & Hs2 & _).
  assert (prior' = prior) as -> by congruence.
  by exists prior, net_out1, net_out2.
Qed.

(** The stages of the two constructors. *)
Lemma MLPHypermodelWithHypermodelPrior_ok
    base_output_sizes prior_scale dummy_input indexer_fn prior_base_output_sizes
    hyper_hidden_sizes prior_hyper_hidden_sizes w_init b_init rgp seed scale net :
  MLPHypermodelWithHypermodelPrior base_output_sizes prior_scale dummy_input indexer_fn
    prior_base_output_sizes hyper_hidden_sizes prior_hyper_hidden_sizes
    w_init b_init rgp seed scale = Ok net →
  ∃ enn_wo_prior prior_enn prior_params,
    MLPHypermodel (hk_transform (MLP_net base_output_sizes w_init b_init))
      dummy_input indexer_fn hyper_hidden_sizes rgp scale w_init b_init = Ok enn_wo_prior ∧
    MLPHypermodel (hk_transform (MLP_net prior_base_output_sizes w_init b_init))
      dummy_input indexer_fn prior_hyper_hidden_sizes rgp scale w_init b_init = Ok prior_enn ∧
    init prior_enn (PRNGKey seed) dummy_input (indexer prior_enn (PRNGKey seed))
      = Ok prior_params ∧
    net = EpistemicNetwork_init
            (EnnWithAdditivePrior enn_wo_prior
               (λ x z, parse_net_output <$> apply prior_enn prior_params x z)
               prior_scale).
Proof.
  unfold MLPHypermodelWithHypermodelPrior.
  intros (prior_enn & Hprior & Hrest)%result_bind_ok.
  apply result_bind_ok in Hrest as (prior_fn & Hfn & Hrest).
  apply result_bind_ok in Hrest as (enn_wo_prior & Henn & [= <-]).
  unfold convert_enn_to_prior_fn in Hfn.
  apply result_bind_ok in Hfn as (prior_params & Hpp & [= <-]).
  exists enn_wo_prior, prior_enn, prior_params. done.
Qed.
Lemma MLPHypermodelPriorIndependentLayers_ok
    base_output_sizes prior_scale dummy_input indexer_fn prior_base_output_sizes
    hyper_hidden_sizes w_init b_init rgp ws bs fb seed scale problem_temperature net :
  MLPHypermodelPriorIndependentLayers base_output_sizes prior_scale dummy_input
    indexer_fn prior_base_output_sizes hyper_hidden_sizes w_init b_init rgp
    ws bs fb seed scale problem_temperature = Ok net →
  ∃ enn_wo_prior index_dim prior_params,
    MLPHypermodel
      (hk_transform (base_net base_output_sizes w_init b_init problem_temperature))
      dummy_input indexer_fn hyper_hidden_sizes rgp scale w_init b_init = Ok enn_wo_prior ∧
    shape (indexer_fn (PRNGSequence_next seed)) = [index_dim] ∧
    hk_init (prior_net prior_base_output_sizes index_dim ws bs fb problem_temperature
               dummy_input (indexer_fn (PRNGSequence_next seed)))
            (PRNGSequence_next seed) = Ok prior_params ∧
    net = EpistemicNetwork_init
            (EnnWithAdditivePrior enn_wo_prior
               (λ x z, hk_apply (prior_net prior_base_output_sizes index_dim ws bs fb
                                   problem_temperature x z) prior_params)
               prior_scale).
Proof.
  unfold MLPHypermodelPriorIndependentLayers.
  destruct (shape (indexer_fn (PRNGSequence_next seed))) as [|index_dim [|]] eqn:Hs;
    [done| |done].
  intros (prior_params & Hpp & Hrest)%result_bind_ok.
  apply result_bind_ok in Hrest as (enn_wo_prior & Henn & [= <-]).
  exists enn_wo_prior, index_dim, prior_params. done.
Qed.

(** C3. The apply function of MLPHypermodelWithHypermodelPrior, and that
    of MLPHypermodelPriorIndependentLayers, returns the output of the
    primary hypermodel plus prior_scale times the output of the prior
    network built beside it: a sum, element by element. *)
Theorem C3_apply_adds_scaled_prior :
  (∀ base_output_sizes prior_scale dummy_input indexer_fn prior_base_output_sizes
     hyper_hidden_sizes prior_hyper_hidden_sizes w_init b_init rgp seed scale net,
     MLPHypermodelWithHypermodelPrior base_output_sizes prior_scale dummy_input
       indexer_fn prior_base_output_sizes hyper_hidden_sizes prior_hyper_hidden_sizes
       w_init b_init rgp seed scale = Ok net →
     ∃ enn_wo_prior prior_enn prior_params,
       MLPHypermodel (hk_transform (MLP_net base_output_sizes w_init b_init))
         dummy_input indexer_fn hyper_hidden_sizes rgp scale w_init b_init
         = Ok enn_wo_prior ∧
       MLPHypermodel (hk_transform (MLP_net prior_base_output_sizes w_init b_init))
         dummy_input indexer_fn prior_hyper_hidden_sizes rgp scale w_init b_init
         = Ok prior_enn ∧
       additive_prior net enn_wo_prior
         (λ x z, parse_net_output <$> apply prior_enn prior_params x z) prior_scale) ∧
  (∀ base_output_sizes prior_scale dummy_input indexer_fn prior_base_output_sizes
     hyper_hidden_sizes w_init b_init rgp ws bs fb seed scale problem_temperature net,
     MLPHypermodelPriorIndependentLayers base_output_sizes prior_scale dummy_input
       indexer_fn prior_base_output_sizes hyper_hidden_sizes w_init b_init rgp
       ws bs fb seed scale problem_temperature = Ok net →
     ∃ enn_wo_prior index_dim prior_params,
       MLPHypermodel
         (hk_transform (base_net base_output_sizes w_init b_init problem_temperature))
         dummy_input indexer_fn hyper_hidden_sizes rgp scale w_init b_init
         = Ok enn_wo_prior ∧
       additive_prior net enn_wo_prior
         (λ x z, hk_apply (prior_net prior_base_output_sizes index_dim ws bs fb
                             problem_temperature x z) prior_params)
         prior_scale).
Proof.
  split.
  - intros * (enn_wo_prior & prior_enn & prior_params & Henn & Hprior & _ & ->)
      %MLPHypermodelWithHypermodelPrior_ok.
    exists enn_wo_prior, prior_enn, prior_params.
    split; [done|]. split; [done|]. apply EnnWithAdditivePrior_additive.
  - intros * (enn_wo_prior & index_dim & prior_params & Henn & _ & _ & ->)
      %MLPHypermodelPriorIndependentLayers_ok.
    exists enn_wo_prior, index_dim, prior_params.
    split; [done|]. apply EnnWithAdditivePrior_additive.
Qed.

(** C5. In both networks with a prior the parameters of the prior network
    are one value, computed by the constructor from the seed; every call of
    the apply function forwards the prior network with that same value,
    whatever parameters the call is given, and the init function is that of
    the primary network: it neither returns nor changes them. *)
Theorem C5_prior_parameters_frozen :
  (∀ base_output_sizes prior_scale dummy_input indexer_fn prior_base_output_sizes
     hyper_hidden_sizes prior_hyper_hidden_sizes w_init b_init rgp seed scale net,
     MLPHypermodelWithHypermodelPrior base_output_sizes prior_scale dummy_input
       indexer_fn prior_base_output_sizes hyper_hidden_sizes prior_hyper_hidden_sizes
       w_init b_init rgp seed scale = Ok net →
     ∃ enn_wo_prior prior_enn prior_params,
       MLPHypermodel (hk_transform (MLP_net base_output_sizes w_init b_init))
         dummy_input indexer_fn hyper_hidden_sizes rgp scale w_init b_init
         = Ok enn_wo_prior ∧
       MLPHypermodel (hk_transform (MLP_net prior_base_output_sizes w_init b_init))
         dummy_input indexer_fn prior_hyper_hidden_sizes rgp scale w_init b_init
         = Ok prior_enn ∧
       init prior_enn (PRNGKey seed) dummy_input (indexer prior_enn (PRNGKey seed))
         = Ok prior_params ∧
       with_frozen_prior net enn_wo_prior
         (λ x z, parse_net_output <$> apply prior_enn prior_params x z) prior_scale) ∧
  (∀ base_output_sizes prior_scale dummy_input indexer_fn prior_base_output_sizes
     hyper_hidden_sizes w_init b_init rgp ws bs fb seed scale problem_temperature net,
     MLPHypermodelPriorIndependentLayers base_output_sizes prior_scale dummy_input
       indexer_fn prior_base_output_sizes hyper_hidden_sizes w_init b_init rgp
       ws bs fb seed scale problem_temperature = Ok net →
     ∃ enn_wo_prior index_dim prior_params,
       MLPHypermodel
         (hk_transform (base_net base_output_sizes w_init b_init problem_temperature))
         dummy_input indexer_fn hyper_hidden_sizes rgp scale w_init b_init
         = Ok enn_wo_prior ∧
       shape (indexer_fn (PRNGSequence_next seed)) = [index_dim] ∧
       hk_init (prior_net prior_base_output_sizes index_dim ws bs fb problem_temperature
                  dummy_input (indexer_fn (PRNGSequence_next seed)))
               (PRNGSequence_next seed) = Ok prior_params ∧
       with_frozen_prior net enn_wo_prior
         (λ x z, hk_apply (prior_net prior_base_output_sizes index_dim ws bs fb
                             problem_temperature x z) prior_params)
         prior_scale).
Proof.
  split.
  - intros * (enn_wo_prior & prior_enn & prior_params & Henn & Hprior & Hpp & ->)
      %MLPHypermodelWithHypermodelPrior_ok.
    exists enn_wo_prior, prior_enn, prior_params.
    split; [done|]. split; [done|]. split; [done|].
    apply EnnWithAdditivePrior_frozen.
  - intros * (enn_wo_prior & index_dim & prior_params & Henn & Hs & Hpp & ->)
      %MLPHypermodelPriorIndependentLayers_ok.
    exists enn_wo_prior, index_dim, prior_params.
    split; [done|]. split; [done|]. split; [done|].
    apply EnnWithAdditivePrior_frozen.
Qed.
End AdditivePrior.

(** * Further properties of the module *)

(** ** HyperLinear *)

Lemma bdim_one_r k : bdim k 1 = Some k.
Proof. unfold bdim. repeat case_decide; congruence. Qed.

Lemma broadcast_shapes_keepdims s k :
  broadcast_shapes (s ++ [k]) (s ++ [1]) = Some (s ++ [k]).
Proof.
  unfold broadcast_shapes. rewrite !reverse_app. simpl.
  rewrite bdim_one_r, bshape_rev_diag. simpl.
  by rewrite reverse_cons, reverse_involutive.
Qed.

Lemma norm_last_shape a s k nw :
  shape a = s ++ [k] → norm_last a = Ok nw → shape nw = s ++ [1].
Proof.
  intros Hs. unfold norm_last. rewrite Hs, reverse_app. simpl.
  intros [= <-]. simpl. by rewrite reverse_involutive.
Qed.

Lemma bin_op_scalar_shape f a c t :
  bin_op f a (Tensor [] c) = Ok t → shape t = shape a.
Proof.
  intros Hs%bin_op_shape. simpl in Hs. rewrite broadcast_shapes_nil_r in Hs.
  congruence.
Qed.

Section HyperLinearFacts.
Context `{Rng}.

Lemma HyperLinear_call_ok_shapes self x z fr out fr' :
  HyperLinear_call self x z fr = Ok (out, fr') →
  ∃ batch hidden i',
    shape x = [batch; hidden] ∧ hidden ≠ 0 ∧
    shape z = [i'] ∧ is_Some (bdim (hl_index_dim_per_layer self) i') ∧
    shape out = [batch; hl_output_size self].
Proof.
  unfold HyperLinear_call.
  destruct (shape x) as [|batch [|hidden [|]]] eqn:Hx; try done.
  intros (w & fr1 & Hw & Hrest)%Hk_bind_ok.
  apply Hk_bind_ok in Hrest as (b & fr2 & Hb & Hrest).
  apply lift_ok in Hrest as [Hrest _].
  apply get_parameter_shape in Hw, Hb.
  set (o := hl_output_size self) in *. set (i := hl_index_dim_per_layer self) in *.
  apply result_bind_ok in Hrest as (nw & Hnw & Hrest).
  apply result_bind_ok in Hrest as (w1 & Hw1 & Hrest).
  apply result_bind_ok in Hrest as (nb & Hnb & Hrest).
  apply result_bind_ok in Hrest as (b1 & Hb1 & Hrest).
  apply result_bind_ok in Hrest as (scale & Hscale & Hrest).
  apply result_bind_ok in Hrest as (w2 & Hw2 & Hrest).
  apply result_bind_ok in Hrest as (b2 & Hb2 & Hrest).
  apply result_bind_ok in Hrest as (b3 & Hb3 & Hrest).
  apply result_bind_ok in Hrest as (weights & Hweights & Hrest).
  apply result_bind_ok in Hrest as (bias & Hbias & Hrest).
  apply result_bind_ok in Hrest as (out0 & Hout0 & Hout).
  unfold python_div in Hscale. case_decide as Hh; [done|]. clear Hscale.
  apply (norm_last_shape _ [o; hidden] i) in Hnw; [|done].
  apply (norm_last_shape _ [o] i) in Hnb; [|done].
  cbn [app] in Hnw, Hnb.
  pose proof (broadcast_shapes_keepdims [o; hidden] i) as Ew.
  pose proof (broadcast_shapes_keepdims [o] i) as Eb. cbn [app] in Ew, Eb.
  apply bin_op_shape in Hw1. rewrite Hw, Hnw, Ew in Hw1. injection Hw1 as Hw1.
  apply bin_op_shape in Hb1. rewrite Hb, Hnb, Eb in Hb1. injection Hb1 as Hb1.
  apply bin_op_scalar_shape in Hw2, Hb2, Hb3.
  unfold einsum_ohi_i in Hweights. rewrite Hw2, <- Hw1 in Hweights.
  destruct (shape z) as [|i' [|]] eqn:Hz; try done.
  destruct (bdim i i') as [n|] eqn:Hbd; [|done]. injection Hweights as <-.
  unfold einsum_oi_i in Hbias. rewrite Hb3, Hb2, <- Hb1, Hz, Hbd in Hbias.
  injection Hbias as <-.
  unfold einsum_oh_bh in Hout0. cbn [shape] in Hout0.
  rewrite Hx, bdim_diag in Hout0. injection Hout0 as <-.
  apply bin_op_shape in Hout. cbn [shape] in Hout.
  pose proof (broadcast_shapes_last [batch] o) as Eo. cbn [app] in Eo.
  rewrite Eo in Hout. injection Hout as Hout.
  exists batch, hidden, i'. rewrite Hbd. done.
Qed.
End HyperLinearFacts.

(** ** PriorMLPIndependentLayers: how the index is shared out *)

Lemma chunks_lookup_shape t d rest sizes : ∀ off i piece,
  shape t = d :: rest → off + sum_nat sizes ≤ d →
  chunks t off sizes !! i = Some piece →
  ∃ s, sizes !! i = Some s ∧ shape piece = s :: rest.
Proof.
  induction sizes as [|s sizes IH]; intros off i piece Hs Hle Hi; [done|].
  simpl in *. destruct i as [|i]; simpl in *.
  - injection Hi as <-. exists s. split; [done|].
    unfold slice0. rewrite Hs. simpl. f_equal. lia.
  - apply (IH (off + s) i piece); [done | lia | done].
Qed.

Lemma section_sizes_balanced d n s1 s2 :
  s1 ∈ section_sizes d n → s2 ∈ section_sizes d n → s1 ≤ S s2.
Proof.
  unfold section_sizes.
  intros [->%elem_of_replicate_inv| ->%elem_of_replicate_inv]%elem_of_app
         [->%elem_of_replicate_inv| ->%elem_of_replicate_inv]%elem_of_app; lia.
Qed.

Section PriorMLPDims.
Context `{Rng}.

(** The index dimension each layer is built for. *)
Lemma pm_layer_dims output_sizes index_dim ws bs fb name fr self fr' :
  PriorMLPIndependentLayers_new output_sizes index_dim ws bs fb name fr
    = Ok (self, fr') →
  length output_sizes ≠ 0 ∧
  hl_index_dim_per_layer <$> pm_layers self =
    (if decide (index_dim < length output_sizes)
     then replicate (length output_sizes) index_dim
     else section_sizes index_dim (length output_sizes)).
Proof.
  intros (Hn & Hd & Hli & Hlayers)%PriorMLPIndependentLayers_new_ok.
  set (n := length output_sizes) in *.
  assert (Hn0 : n ≠ 0).
  { case_decide; [lia|]. intros Hn0. unfold array_split in Hli.
    cbn [arange shape] in Hli. by rewrite decide_True in Hli. }
  split; [done|].
  assert (Hli' :
    (¬ index_dim < n ∧
     pm_layers_indices self = chunks (arange index_dim) 0 (section_sizes index_dim n)) ∨
    (index_dim < n ∧ pm_layers_indices self = replicate n (arange index_dim))).
  { case_decide.
    - right. split; [done|]. by injection Hli.
    - left. split; [done|].
      rewrite (array_split_chunks _ index_dim []) in Hli by done.
      by injection Hli. }
  clear Hli. apply list_eq_Forall2, Forall2_fmap_l, Forall2_same_length_lookup_2.
  { apply Forall2_length in Hlayers. rewrite <- Hlayers, length_zip_with.
    destruct Hli' as [[? ->]|[? ->]].
    - rewrite decide_False by done.
      rewrite length_chunks, length_section_sizes by done. unfold n. lia.
    - rewrite decide_True by done. rewrite !length_replicate. unfold n. lia. }
  intros i layer s Hlayer Hs.
  destruct (Forall2_lookup_r _ _ _ _ _ Hlayers Hlayer) as ([li os] & Hp & Hidx & _).
  apply lookup_zip_with_Some in Hp as (? & ? & [= <- <-] & Hlii & _).
  simpl in Hidx. change (hl_index_dim_per_layer layer = s). rewrite Hidx.
  destruct Hli' as [[Hge Hc]|[Hlt Hr]].
  - rewrite decide_False in Hs by done. rewrite Hc in Hlii.
    apply (chunks_lookup_shape _ index_dim []) in Hlii as (s' & Hs' & Hsh);
      [|done|by rewrite sum_section_sizes].
    unfold len. rewrite Hsh. simpl. congruence.
  - rewrite decide_True in Hs by done. rewrite Hr in Hlii.
    apply lookup_replicate in Hlii as [-> _]. apply lookup_replicate in Hs as [-> _].
    done.
Qed.
End PriorMLPDims.

Section PriorMLPAccepts.
Context `{Rng}.

Lemma mapM_Hk_total {A B} (f : A → Hk B) :
  (∀ x fr, ∃ y fr', f x fr = Ok (y, fr')) →
  ∀ l fr, ∃ ys fr', mapM f l fr = Ok (ys, fr').
Proof.
  intros Hf. induction l as [|x l IH]; intros fr.
  - by eexists _, _.
  - destruct (Hf x fr) as (y & fr1 & Hy). destruct (IH fr1) as (ys & fr2 & Hys).
    exists (y :: ys), fr2. simpl.
    rewrite (Hk_bind_eq _ _ _ _ _ Hy), (Hk_bind_eq _ _ _ _ _ Hys). done.
Qed.

(** X1. PriorMLPIndependentLayers can be constructed exactly when it has
    at least one layer: with no output sizes the split of the index into
    zero chunks raises. *)
Theorem X1_prior_needs_a_layer (output_sizes : list nat) (index_dim : nat)
    (ws bs fb : R) (name : string) (fr : frame) :
  is_ok (PriorMLPIndependentLayers_new output_sizes index_dim ws bs fb name fr)
  ↔ output_sizes ≠ [].
Proof.
  split.
  - destruct (PriorMLPIndependentLayers_new _ _ _ _ _ _ _) as [[self fr']|] eqn:Hnew;
      [|done].
    intros _ ->. by apply pm_layer_dims in Hnew as [? _].
  - intros Hne. unfold PriorMLPIndependentLayers_new.
    assert (Hn : length output_sizes ≠ 0) by (by destruct output_sizes).
    rewrite (Hk_bind_eq _ _ _ _ _ eq_refl).
    match goal with |- context [mbind ?k (if ?c then ?a else ?b)] =>
      assert (∃ li, ∀ fr1, (if c then a else b) fr1 = Ok (li, fr1)) as [li Hli] end.
    { case_decide; [by eexists|].
      rewrite (array_split_chunks _ index_dim []) by done. by eexists. }
    rewrite (Hk_bind_eq _ _ _ _ _ (Hli _)).
    match goal with |- context [mapM ?f ?l] =>
      assert (Htot : ∀ p fr1, ∃ y fr2, f p fr1 = Ok (y, fr2))
        by (intros; by eexists _, _);
      destruct (mapM_Hk_total f Htot l
                  (Frame (fr_params fr) (fr_rng fr) (fr_frozen fr)
                     (<[name := S (default 0 (fr_names fr !! name))]> (fr_names fr))))
        as (layers & fr2 & Hlayers) end.
    by rewrite (Hk_bind_eq _ _ _ _ _ Hlayers).
Qed.

(** X2. When the index is split (index_dim at least the number of
    layers) every layer is built for at least one index coordinate, the
    per-layer index dimensions add up to index_dim, and any two of them
    differ by at most one. *)
Theorem X2_split_is_balanced (output_sizes : list nat) (index_dim : nat)
    (ws bs fb : R) (name : string) (fr : frame)
    (self : PriorMLPIndependentLayers) (fr' : frame) :
  PriorMLPIndependentLayers_new output_sizes index_dim ws bs fb name fr
    = Ok (self, fr') →
  length output_sizes ≤ index_dim →
  let dims := hl_index_dim_per_layer <$> pm_layers self in
  length dims = length output_sizes ∧
  sum_nat dims = index_dim ∧
  Forall (λ s, 1 ≤ s) dims ∧
  ∀ s1 s2, s1 ∈ dims → s2 ∈ dims → s1 ≤ S s2.
Proof.
  intros [Hn Hdims]%pm_layer_dims Hle dims. unfold dims. rewrite Hdims.
  rewrite decide_False by lia.
  split; [by apply length_section_sizes|]. split; [by apply sum_section_sizes|].
  split; [|apply section_sizes_balanced].
  apply Forall_forall. intros s Hs. unfold section_sizes in Hs.
  assert (1 ≤ index_dim `div` length output_sizes).
  { apply Nat.div_le_lower_bound; lia. }
  apply elem_of_app in Hs as [->%elem_of_replicate_inv| ->%elem_of_replicate_inv]; lia.
Qed.

End PriorMLPAccepts.

Section HyperLinearCalls.
Context `{Rng}.

Lemma norm_last_ok a s k :
  shape a = s ++ [k] → ∃ nw, norm_last a = Ok nw ∧ shape nw = s ++ [1].
Proof.
  intros Hs. unfold norm_last. rewrite Hs, reverse_app. simpl.
  eexists. split; [done|]. simpl. by rewrite reverse_involutive.
Qed.

Lemma bdim_is_Some i i' : is_Some (bdim i i') ↔ i' = i ∨ i' = 1 ∨ i = 1.
Proof.
  unfold bdim. repeat case_decide; split; intros Hs;
    try (by eexists); try (by destruct Hs); try tauto; try lia.
Qed.

Lemma HyperLinear_call_total self x z fr w b batch hidden i' :
  has_param fr (hl_name self) "w" w →
  shape w = [hl_output_size self; hidden; hl_index_dim_per_layer self] →
  has_param fr (hl_name self) "b" b →
  shape b = [hl_output_size self; hl_index_dim_per_layer self] →
  shape x = [batch; hidden] → hidden ≠ 0 →
  shape z = [i'] → is_Some (bdim (hl_index_dim_per_layer self) i') →
  ∃ out, HyperLinear_call self x z fr = Ok (out, fr).
Proof.
  intros Hw Hsw Hb Hsb Hx Hh Hz [n Hbd].
  unfold HyperLinear_call, jnp_div, jnp_mul, jnp_add. rewrite Hx.
  set (o := hl_output_size self) in *. set (i := hl_index_dim_per_layer self) in *.
  rewrite (Hk_bind_eq _ _ _ _ _ (get_parameter_stored _ _ _ _ _ _ Hw Hsw)).
  rewrite (Hk_bind_eq _ _ _ _ _ (get_parameter_stored _ _ _ _ _ _ Hb Hsb)).
  destruct (norm_last_ok w [o; hidden] i Hsw) as (nw & -> & Hnw).
  destruct (norm_last_ok b [o] i Hsb) as (nb & Hnb' & Hnb).
  cbn [app] in Hnw, Hnb.
  pose proof (broadcast_shapes_keepdims [o; hidden] i) as Ew.
  pose proof (broadcast_shapes_keepdims [o] i) as Eb. cbn [app] in Ew, Eb.
  cbn [mbind result_bind].
  destruct (bin_op_ok_shape Rdiv w nw [o; hidden; i]) as (w1 & Hw1 & Hsw1);
    [by rewrite Hsw, Hnw|].
  rewrite Hw1. cbn [mbind result_bind]. rewrite Hnb'.
  cbn [mbind result_bind].
  destruct (bin_op_ok_shape Rdiv b nb [o; i]) as (b1 & Hb1 & Hsb1);
    [by rewrite Hsb, Hnb|].
  rewrite Hb1. cbn [mbind result_bind].
  unfold python_div. rewrite decide_False by done. cbn [mbind result_bind].
  destruct (bin_op_ok_shape Rmult w1
              (jnp_sqrt (scalar (hl_weight_scaling self / INR hidden))) [o; hidden; i])
    as (w2 & Hw2 & Hsw2); [rewrite Hsw1; apply broadcast_shapes_nil_r|].
  rewrite Hw2. cbn [mbind result_bind].
  destruct (bin_op_ok_shape Rmult b1 (jnp_sqrt (scalar (hl_bias_scaling self))) [o; i])
    as (b2 & Hb2 & Hsb2); [rewrite Hsb1; apply broadcast_shapes_nil_r|].
  rewrite Hb2. cbn [mbind result_bind].
  destruct (bin_op_ok_shape Rplus b2 (scalar (hl_fixed_bias_val self)) [o; i])
    as (b3 & Hb3 & Hsb3); [rewrite Hsb2; apply broadcast_shapes_nil_r|].
  rewrite Hb3. cbn [mbind result_bind].
  unfold einsum_ohi_i. rewrite Hsw2, Hz, Hbd. cbn [mbind result_bind].
  unfold einsum_oi_i. rewrite Hsb3, Hz, Hbd. cbn [mbind result_bind].
  unfold einsum_oh_bh. cbn [shape]. rewrite Hx, bdim_diag.
  cbn [mbind result_bind].
  pose proof (broadcast_shapes_last [batch] o) as Eo. cbn [app] in Eo.
  match goal with |- context [bin_op Rplus ?a ?c] =>
    destruct (bin_op_ok_shape Rplus a c [batch; o]) as (out & Hout & _); [exact Eo|] end.
  rewrite Hout. by eexists.
Qed.

Lemma HyperLinear_call_no_hidden self x z fr w b batch :
  has_param fr (hl_name self) "w" w →
  shape w = [hl_output_size self; 0; hl_index_dim_per_layer self] →
  has_param fr (hl_name self) "b" b →
  shape b = [hl_output_size self; hl_index_dim_per_layer self] →
  shape x = [batch; 0] →
  HyperLinear_call self x z fr = Raise ZeroDivisionError.
Proof.
  intros Hw Hsw Hb Hsb Hx.
  unfold HyperLinear_call, jnp_div, jnp_mul, jnp_add. rewrite Hx.
  set (o := hl_output_size self) in *. set (i := hl_index_dim_per_layer self) in *.
  rewrite (Hk_bind_eq _ _ _ _ _ (get_parameter_stored _ _ _ _ _ _ Hw Hsw)).
  rewrite (Hk_bind_eq _ _ _ _ _ (get_parameter_stored _ _ _ _ _ _ Hb Hsb)).
  destruct (norm_last_ok w [o; 0] i Hsw) as (nw & -> & Hnw).
  destruct (norm_last_ok b [o] i Hsb) as (nb & Hnb' & Hnb).
  cbn [app] in Hnw, Hnb.
  pose proof (broadcast_shapes_keepdims [o; 0] i) as Ew.
  pose proof (broadcast_shapes_keepdims [o] i) as Eb. cbn [app] in Ew, Eb.
  cbn [mbind result_bind].
  destruct (bin_op_ok_shape Rdiv w nw [o; 0; i]) as (w1 & Hw1 & Hsw1);
    [by rewrite Hsw, Hnw|].
  rewrite Hw1. cbn [mbind result_bind]. rewrite Hnb'.
  cbn [mbind result_bind].
  destruct (bin_op_ok_shape Rdiv b nb [o; i]) as (b1 & Hb1 & Hsb1);
    [by rewrite Hsb, Hnb|].
  rewrite Hb1. cbn [mbind result_bind].
  unfold python_div. rewrite decide_True by done. done.
Qed.

(** X3. HyperLinear.__call__ with parameters stored for hidden size h.
    It raises ValueError when x is not a matrix and ZeroDivisionError
    when x is a matrix with no column (h = 0: line 273 divides by the
    hidden size).  It returns exactly when x has shape (batch, h) with
    h > 0 and z is a vector that jnp.einsum accepts against the index
    axis of the parameters: of length index_dim_per_layer, or of length
    1, or of any length when index_dim_per_layer is 1.  It then leaves
    the parameters as they are, and the output has shape
    (batch, output_size). *)
Theorem X3_HyperLinear_shapes (self : HyperLinear) (x z : tensor) (fr : frame)
    (w b : tensor) (h : nat) :
  has_param fr (hl_name self) "w" w →
  shape w = [hl_output_size self; h; hl_index_dim_per_layer self] →
  has_param fr (hl_name self) "b" b →
  shape b = [hl_output_size self; hl_index_dim_per_layer self] →
  (length (shape x) ≠ 2 → HyperLinear_call self x z fr = Raise ValueError) ∧
  (h = 0 → (∃ batch, shape x = [batch; h]) →
     HyperLinear_call self x z fr = Raise ZeroDivisionError) ∧
  ((∃ out fr', HyperLinear_call self x z fr = Ok (out, fr')) ↔
   h ≠ 0 ∧ (∃ batch, shape x = [batch; h]) ∧
   ∃ i', shape z = [i'] ∧
         (i' = hl_index_dim_per_layer self ∨ i' = 1 ∨ hl_index_dim_per_layer self = 1)) ∧
  (∀ out fr', HyperLinear_call self x z fr = Ok (out, fr') →
     fr' = fr ∧
     ∃ batch, shape x = [batch; h] ∧ shape out = [batch; hl_output_size self]).
Proof.
  intros Hw Hsw Hb Hsb.
  assert (Hinv : ∀ out fr', HyperLinear_call self x z fr = Ok (out, fr') →
    fr' = fr ∧ h ≠ 0 ∧
    ∃ batch i', shape x = [batch; h] ∧ shape z = [i'] ∧
                is_Some (bdim (hl_index_dim_per_layer self) i') ∧
                shape out = [batch; hl_output_size self]).
  { intros out fr' Hcall.
    pose proof Hcall
      as (batch & hidden & i' & Hx & Hh & Hz & Hbd & Hout)%HyperLinear_call_ok_shapes.
    assert (hidden = h) as ->.
    { unfold HyperLinear_call in Hcall. rewrite Hx in Hcall.
      apply Hk_bind_ok in Hcall as (w' & fr1 & Hw' & _).
      unfold get_parameter in Hw'. unfold has_param in Hw. rewrite Hw in Hw'.
      case_decide as Hsh; [|done]. rewrite Hsw in Hsh. by injection Hsh as ->. }
    destruct (HyperLinear_call_total self x z fr w b batch h i') as [out' Hout'];
      try done.
    split; [congruence|]. split; [done|]. exists batch, i'. done. }
  split; [|split; [|split]].
  - intros Hlen. unfold HyperLinear_call.
    by destruct (shape x) as [|? [|? [|]]].
  - intros -> [batch Hx]. by eapply HyperLinear_call_no_hidden.
  - split.
    + intros (out & fr' & (_ & Hh & batch & i' & Hx & Hz & Hbd & _)%Hinv).
      split; [done|]. split; [eauto|]. exists i'. split; [done|].
      by apply bdim_is_Some.
    + intros (Hh & [batch Hx] & i' & Hz & Hbd%bdim_is_Some).
      destruct (HyperLinear_call_total self x z fr w b batch h i') as [out Hout];
        eauto.
  - intros out fr' (-> & _ & batch & i' & Hx & _ & _ & Hout)%Hinv. eauto.
Qed.
End HyperLinearCalls.


Section HyperFnFacts.
Context `{Rng}.

(** X5. The flag return_generated_params changes neither the prediction
    nor the parameters created: with the flag the train output is the
    plain output without it, the frame left behind is the same, and one
    run raises exactly when the other does, with the same exception. *)
Theorem X5_generated_params_flag_keeps_prediction (transformed_base : Transformed)
    (hyper_torso : tensor → Hk tensor) (diagonal_linear_hyper scale : bool)
    (base_shapes : tree (list nat)) (base_shapes_flat : tree nat)
    (inputs index : tensor) (fr : frame) :
  match hyper_fn transformed_base hyper_torso diagonal_linear_hyper true scale
          base_shapes base_shapes_flat inputs index fr,
        hyper_fn transformed_base hyper_torso diagonal_linear_hyper false scale
          base_shapes base_shapes_flat inputs index fr with
  | Ok (OutputWithPrior train extra, fr1), Ok (Plain out, fr2) =>
      train = out ∧ fr1 = fr2 ∧
      ∃ generated_params generated_params_scaled,
        extra = {[ "hyper_net_out" := generated_params;
                   "base_net_params" := generated_params_scaled ]} ∧
        tr_apply transformed_base generated_params_scaled inputs = Ok out
  | Raise e1, Raise e2 => e1 = e2
  | _, _ => False
  end.
Proof.
  unfold hyper_fn, mbind, Hk_bind.
  destruct (generated_params_fn _ _ _ _ _ _) as [[gp fr1]|e]; [|done].
  destruct scale.
  - unfold lift. destruct (hk_map scale_fn gp) as [gps|e]; [|done]. simpl.
    destruct (tr_apply transformed_base gps inputs) as [out|e] eqn:Hout; [|done].
    simpl. eauto 10.
  - simpl. unfold lift.
    destruct (tr_apply transformed_base gp inputs) as [out|e] eqn:Hout; [|done].
    simpl. eauto 10.
Qed.
End HyperFnFacts.

(** ** The diagonal path of hyper_fn *)

Lemma removelast_cumsum_from acc sizes :
  sizes ≠ [] →
  removelast (cumsum_from acc sizes) ++ [acc + sum_nat sizes] = cumsum_from acc sizes.
Proof.
  revert acc. induction sizes as [|s sizes IH]; intros acc Hne; [done|].
  destruct sizes as [|s' sizes].
  - simpl. by rewrite Nat.add_0_r.
  - change (cumsum_from acc (s :: s' :: sizes))
      with ((acc + s) :: cumsum_from (acc + s) (s' :: sizes)).
    change (sum_nat (s :: s' :: sizes)) with (s + sum_nat (s' :: sizes)).
    specialize (IH (acc + s) ltac:(done)). rewrite Nat.add_assoc.
    remember (cumsum_from (acc + s) (s' :: sizes)) as cs eqn:E.
    destruct cs as [|c cs]; [simpl in E; discriminate|].
    change (removelast ((acc + s) :: c :: cs)) with ((acc + s) :: removelast (c :: cs)).
    rewrite <- app_comm_cons. f_equal. exact IH.
Qed.

Lemma jnp_split_sizes t sizes :
  shape t = [sum_nat sizes] → sizes ≠ [] →
  jnp_split t (removelast (cumsum sizes)) = Ok (chunks t 0 sizes).
Proof.
  intros Hs Hne. unfold jnp_split. rewrite Hs. f_equal.
  cbn [tail]. unfold cumsum.
  pose proof (removelast_cumsum_from 0 sizes Hne) as Hc. simpl in Hc.
  rewrite Hc. apply zip_with_slice0_chunks.
Qed.

Lemma jnp_split_length t d rest indices pieces :
  shape t = d :: rest → jnp_split t indices = Ok pieces →
  length pieces = S (length indices).
Proof.
  intros Hs. unfold jnp_split. rewrite Hs. cbn [tail]. intros Hp.
  replace pieces with (zip_with (slice0 t) (0 :: indices ++ [d]) (indices ++ [d]))
    by congruence.
  rewrite length_zip_with. cbn [length]. rewrite length_app. cbn [length]. lia.
Qed.

Lemma concat_chunks_all t sizes :
  shape t = [sum_nat sizes] → wf t →
  concat (data <$> chunks t 0 sizes) = data t.
Proof.
  intros Hs Hwf. rewrite (concat_chunks t (sum_nat sizes)) by (done || lia).
  rewrite drop_0. apply take_ge. unfold wf in Hwf. rewrite Hwf, Hs. simpl. lia.
Qed.

Lemma tree_multimap_reshape_data (flat_output : Params) (base_shapes : tree (list nat))
    (generated_params : Params) :
  tree_multimap reshape flat_output base_shapes = Ok generated_params →
  data <$> tree_leaves generated_params = data <$> tree_leaves flat_output.
Proof.
  unfold tree_multimap. case_decide as Hst; [|done].
  intros (ls & Hls & Hun)%result_bind_ok.
  apply mapM_result_ok in Hls.
  apply tree_unflatten_flatten in Hun as [_ ->]; [|apply treedef_wf_structure].
  assert (Hlen : length (tree_leaves flat_output) = length (tree_leaves base_shapes)).
  { by rewrite !length_tree_leaves, Hst. }
  rewrite <- (fst_zip (tree_leaves flat_output) (tree_leaves base_shapes)) by lia.
  clear -Hls. induction Hls as [|[a s] y l k Hy _ IH]; [done|].
  rewrite !fmap_cons. f_equal; [|exact IH].
  simpl in Hy. unfold reshape in Hy. case_decide; [|done]. by injection Hy as <-.
Qed.

Section DiagonalPath.
Context `{Rng}.

(** X6. With diagonal_linear_hyper, an index whose shape is not
    (number of entries of the base parameters,) is rejected with an
    AssertionError, whatever the inputs and before any parameter of the
    hypermodel is created. *)
Theorem X6_diagonal_rejects_other_index_sizes (transformed_base : Transformed)
    (dummy_input : tensor) (hyper_torso : tensor → Hk tensor)
    (return_generated_params scale : bool)
    (enn_ctor : tensor → tensor → Hk Output) (base_params : Params)
    (inputs index : tensor) (fr : frame) :
  hypermodel_module transformed_base dummy_input hyper_torso true
    return_generated_params scale = Ok enn_ctor →
  tr_init transformed_base (PRNGKey 0) dummy_input = Ok base_params →
  shape index ≠ [sum_nat ((λ p, numel (shape p)) <$> tree_leaves base_params)] →
  enn_ctor inputs index fr = Raise AssertionError.
Proof.
  intros (bp & Hbp & ->)%hypermodel_module_ok Hinit Hne.
  rewrite Hinit in Hbp. injection Hbp as <-.
  unfold hyper_fn, generated_params_fn, flat_output_fn, assert_shape.
  rewrite tree_leaves_base_shapes_flat. by rewrite decide_False.
Qed.

(** X7. With diagonal_linear_hyper, the generated parameters are the
    output of one DiagonalLinear layer applied to the index, cut into
    consecutive pieces: they have the shapes of the base parameters, and
    their entries, read leaf after leaf, are exactly the entries of
    DiagonalLinear(index), each used once and in order. *)
Theorem X7_diagonal_params_are_the_scaled_index
    (hyper_torso : tensor → Hk tensor) (base_params : Params)
    (index : tensor) (fr : frame) (generated_params : Params) (fr' : frame) :
  generated_params_fn hyper_torso true (base_shapes_of base_params)
    (base_shapes_flat_of base_params) index fr = Ok (generated_params, fr') →
  ∃ dl fr1 hyper_index,
    DiagonalLinear_new true None None None fr = Ok (dl, fr1) ∧
    DiagonalLinear_call dl index float32 fr1 = Ok (hyper_index, fr') ∧
    shape hyper_index = shape index ∧
    same_shapes generated_params base_params ∧
    concat (data <$> tree_leaves generated_params) = data hyper_index.
Proof.
  intros Hgp. pose proof (generated_params_same_shapes _ _ _ _ _ _ _ Hgp) as Hsame.
  unfold generated_params_fn in Hgp.
  apply Hk_bind_ok in Hgp as (fo & fr4 & Hfo & Hgp).
  apply lift_ok in Hgp as [Hgp ->].
  unfold flat_output_fn in Hfo.
  apply Hk_bind_ok in Hfo as ([] & fr0 & Hassert & Hfo).
  apply lift_ok in Hassert as [Hassert ->].
  unfold assert_shape in Hassert. case_decide as Hsi; [|done]. clear Hassert.
  apply Hk_bind_ok in Hfo as (dl & fr1 & Hdl & Hfo).
  apply Hk_bind_ok in Hfo as (hyper_index & fr2 & Hcall & Hfo).
  apply Hk_bind_ok in Hfo as (pieces & fr3 & Hsplit & Hfo).
  apply lift_ok in Hsplit as [Hsplit ->]. apply lift_ok in Hfo as [Hun ->].
  exists dl, fr1, hyper_index.
  pose proof (DiagonalLinear_call_ok_shape _ _ _ _ _ _ Hcall) as (_ & Hsh & Hwf).
  split; [done|]. split; [done|]. split; [done|]. split; [exact Hsame|].
  set (sizes := tree_leaves (base_shapes_flat_of base_params)) in *.
  rewrite Hsi in Hsh.
  apply tree_unflatten_flatten in Hun as [_ Hleaves]; [|apply treedef_wf_structure].
  assert (Hne : sizes ≠ []).
  { intros Hnil.
    pose proof (jnp_split_length _ _ _ _ _ Hsh Hsplit) as Hlp.
    pose proof (length_tree_leaves fo) as Hlf.
    apply tree_multimap_reshape_shapes in Hgp as Hshapes.
    pose proof (f_equal (λ t, length (tree_leaves t)) Hshapes) as Hl. simpl in Hl.
    pose proof (tree_multimap_reshape_data _ _ _ Hgp) as Hd.
    apply (f_equal length) in Hd. rewrite !length_fmap in Hd.
    rewrite tree_leaves_map, length_fmap in Hl.
    assert (Hl2 : length (tree_leaves (base_shapes_of base_params)) = length sizes).
    { unfold sizes, base_shapes_of, base_shapes_flat_of.
      by rewrite !tree_leaves_map, !length_fmap. }
    rewrite Hleaves, Hlp in Hd. rewrite Hnil in Hl2. simpl in Hl2. lia. }
  rewrite (jnp_split_sizes _ _ Hsh Hne) in Hsplit. injection Hsplit as <-.
  rewrite (tree_multimap_reshape_data _ _ _ Hgp), Hleaves.
  by apply concat_chunks_all.
Qed.
End DiagonalPath.

Section PriorMLPOutput.
Context `{Rng}.

Lemma pm_layer_outputs output_sizes index_dim ws bs fb name fr self fr' :
  PriorMLPIndependentLayers_new output_sizes index_dim ws bs fb name fr
    = Ok (self, fr') →
  hl_output_size <$> pm_layers self = output_sizes.
Proof.
  intros Hnew.
  pose proof Hnew as [Hn0 Hdims]%pm_layer_dims.
  pose proof Hnew as (_ & _ & _ & Hlayers)%PriorMLPIndependentLayers_new_ok.
  assert (Hlen : length (pm_layers self) = length output_sizes).
  { rewrite <- (length_fmap hl_index_dim_per_layer), Hdims.
    case_decide; [apply length_replicate | by apply length_section_sizes]. }
  apply list_eq_Forall2, Forall2_fmap_l, Forall2_same_length_lookup_2; [done|].
  intros i layer s Hlayer Hs.
  destruct (Forall2_lookup_r _ _ _ _ _ Hlayers Hlayer) as ([li os] & Hp & _ & Hos).
  apply lookup_zip_with_Some in Hp as (? & ? & [= <- <-] & _ & Hosi).
  simpl in Hos. change (hl_output_size layer = s). congruence.
Qed.

Lemma forward_with_out_shape num_layers calls : ∀ i x fr out fr' batch hidden,
  shape x = [batch; hidden] →
  forward_with num_layers i calls x fr = Ok (out, fr') →
  shape out = [batch; default hidden (last (hl_output_size <$> calls.*1))].
Proof.
  induction calls as [|[layer idx] calls IH];
    intros i x fr out fr' batch hidden Hx Hf.
  - by injection Hf as <- _.
  - simpl in Hf. apply Hk_bind_ok in Hf as (o & fr1 & Hcall & Hf).
    apply HyperLinear_call_ok_shapes in Hcall as (b' & h' & i' & Hx' & _ & _ & _ & Ho).
    rewrite Hx in Hx'. injection Hx' as <- <-.
    apply (IH _ _ _ _ _ batch (hl_output_size layer)) in Hf;
      [|by destruct (decide (i < num_layers - 1))].
    rewrite Hf. rewrite !fmap_cons. cbn [fst]. rewrite last_cons.
    by destruct (last (hl_output_size <$> calls.*1)).
Qed.

(** What a call of the prior MLP that returns went through. *)
Lemma pm_call_ok_shapes output_sizes index_dim ws bs fb name fr0 self fr1
    x z fr out fr' :
  PriorMLPIndependentLayers_new output_sizes index_dim ws bs fb name fr0
    = Ok (self, fr1) →
  PriorMLPIndependentLayers_call self x z fr = Ok (out, fr') →
  output_sizes ≠ [] ∧
  ∃ batch hidden,
    shape x = [batch; hidden] ∧
    shape out = [batch; default hidden (last output_sizes)].
Proof.
  intros Hnew Hcall.
  pose proof Hnew as [Hn0 _]%pm_layer_dims.
  pose proof Hnew as Houts%pm_layer_outputs.
  pose proof Hnew as (Hn & Hd & _)%PriorMLPIndependentLayers_new_ok.
  set (n := length output_sizes) in *.
  split; [by intros ->|].
  assert (Hlen : length (pm_layers self) = n).
  { by rewrite <- (length_fmap hl_output_size), Houts. }
  unfold PriorMLPIndependentLayers_call in Hcall.
  apply Hk_bind_ok in Hcall as (pieces & fr2 & Hpieces & Hloop).
  apply lift_ok in Hpieces as [Hpieces ->].
  unfold index_layers_of in Hpieces. rewrite Hn, Hd in Hpieces.
  assert (Hlp : length pieces = n).
  { case_decide.
    - injection Hpieces as <-. apply length_replicate.
    - destruct (shape z) as [|d rest] eqn:Hz.
      { unfold array_split in Hpieces. by rewrite Hz in Hpieces. }
      rewrite (array_split_chunks _ d rest) in Hpieces by done.
      injection Hpieces as <-.
      by rewrite length_chunks, length_section_sizes. }
  rewrite PriorMLP_loop_forward in Hloop by lia. rewrite drop_0 in Hloop.
  assert (∃ batch hidden, shape x = [batch; hidden]) as (batch & hidden & Hx).
  { destruct (pm_layers self) as [|layer layers]; [simpl in Hlen; lia|].
    destruct pieces as [|piece pieces]; [simpl in Hlp; lia|].
    simpl in Hloop. apply Hk_bind_ok in Hloop as (o & fr3 & Hc & _).
    apply HyperLinear_call_ok_shapes in Hc as (b' & h' & i' & Hx & _). eauto. }
  apply (forward_with_out_shape _ _ _ _ _ _ _ batch hidden Hx) in Hloop.
  rewrite fst_zip, Houts in Hloop by lia. eauto.
Qed.

(** X8. The output of the prior MLP: whenever a call returns, the input
    is a batch of vectors, of shape (batch, hidden), and the output has
    shape (batch, output_sizes[-1]). *)
Theorem X8_prior_output_shape (output_sizes : list nat)
    (index_dim : nat) (ws bs fb : R) (name : string) (fr0 : frame)
    (self : PriorMLPIndependentLayers) (fr1 : frame)
    (x z : tensor) (fr : frame) (out : tensor) (fr' : frame) :
  PriorMLPIndependentLayers_new output_sizes index_dim ws bs fb name fr0
    = Ok (self, fr1) →
  PriorMLPIndependentLayers_call self x z fr = Ok (out, fr') →
  ∃ batch hidden o,
    shape x = [batch; hidden] ∧ last output_sizes = Some o ∧
    shape out = [batch; o].
Proof.
  intros Hnew Hcall.
  destruct (pm_call_ok_shapes _ _ _ _ _ _ _ _ _ _ _ _ _ _ Hnew Hcall)
    as (Hne & batch & hidden & Hx & Hout).
  destruct (last output_sizes) as [o|] eqn:Hlast.
  - exists batch, hidden, o. done.
  - apply last_None in Hlast. done.
Qed.

(** X9. What MLPHypermodelPriorIndependentLayers needs to be built: the
    indexer's sample is a vector, the prior has at least one layer, and
    the dummy input is a matrix (a batch of inputs); otherwise the
    constructor raises. *)
Theorem X9_prior_layers_network_requirements
    (base_output_sizes : list nat) (prior_scale : R) (dummy_input : tensor)
    (indexer_fn : Key → tensor) (prior_base_output_sizes : list nat)
    (hyper_hidden_sizes : option (list nat)) (w_init b_init : option Initializer)
    (return_generated_params : bool) (ws bs fb : R) (seed : Z) (scale : bool)
    (problem_temperature : option R) (net : EpistemicNetwork) :
  MLPHypermodelPriorIndependentLayers base_output_sizes prior_scale dummy_input
    indexer_fn prior_base_output_sizes hyper_hidden_sizes w_init b_init
    return_generated_params ws bs fb seed scale problem_temperature = Ok net →
  (∃ index_dim, shape (indexer_fn (PRNGSequence_next seed)) = [index_dim]) ∧
  prior_base_output_sizes ≠ [] ∧
  ∃ batch hidden, shape dummy_input = [batch; hidden].
Proof.
  intros (enn & index_dim & prior_params & _ & Hidx & Hinit & _)
    %MLPHypermodelPriorIndependentLayers_ok.
  split; [eauto|].
  unfold hk_init in Hinit. apply result_fmap_ok in Hinit as ([out fr'] & Hrun & _).
  unfold prior_net in Hrun.
  apply Hk_bind_ok in Hrun as (pm & fr1 & Hnew & Hrun).
  apply Hk_bind_ok in Hrun as (net_out & fr2 & Hcall & _).
  destruct (pm_call_ok_shapes _ _ _ _ _ _ _ _ _ _ _ _ _ _ Hnew Hcall)
    as (Hne & batch & hidden & Hx & _).
  eauto.
Qed.

(** X10. A problem_temperature of 0.0 is ignored: the network built is
    the one built without a temperature, no division by zero takes
    place. *)
Theorem X10_zero_temperature_is_no_temperature
    (base_output_sizes : list nat) (prior_scale : R) (dummy_input : tensor)
    (indexer_fn : Key → tensor) (prior_base_output_sizes : list nat)
    (hyper_hidden_sizes : option (list nat)) (w_init b_init : option Initializer)
    (return_generated_params : bool) (ws bs fb : R) (seed : Z) (scale : bool) :
  MLPHypermodelPriorIndependentLayers base_output_sizes prior_scale dummy_input
    indexer_fn prior_base_output_sizes hyper_hidden_sizes w_init b_init
    return_generated_params ws bs fb seed scale (Some 0%R)
  = MLPHypermodelPriorIndependentLayers base_output_sizes prior_scale dummy_input
      indexer_fn prior_base_output_sizes hyper_hidden_sizes w_init b_init
      return_generated_params ws bs fb seed scale None.
Proof.
  assert (Ht : temper (Some 0%R) = temper None).
  { apply Stdlib.Logic.FunctionalExtensionality.functional_extensionality.
    intros t. unfold temper. by rewrite decide_True. }
  unfold MLPHypermodelPriorIndependentLayers, base_net, prior_net.
  by rewrite Ht.
Qed.
End PriorMLPOutput.
(** ** The theorems at concrete inputs *)

#[local] Existing Instance demo_rng.

Lemma C8_witness :
  let x := Tensor [2] [1; 2]%R in
  (∃ out, DiagonalLinear_call demo_dl x float32 demo_dl_frame = Ok (out, demo_dl_frame) ∧
          shape out = shape x) ∧
  (∃ out fr', DiagonalLinear_call demo_dl x float32 demo_frame_init = Ok (out, fr') ∧
              shape out = shape x) ∧
  DiagonalLinear_call demo_dl (scalar 1) float32 demo_dl_frame = Raise ValueError.
Proof.
  intros x. split; [|split].
  - destruct (C8_DiagonalLinear_call_shape demo_dl x float32 demo_dl_frame)
      as (_ & _ & Hns).
    destruct (Hns 2 [] eq_refl) as (Happly & _).
    apply (Happly (Tensor [2] [0; 0]%R) (Tensor [2] [1; 1]%R)).
    + vm_compute. reflexivity.
    + reflexivity.
    + intros _. split; [vm_compute; reflexivity | reflexivity].
  - destruct (C8_DiagonalLinear_call_shape demo_dl x float32 demo_frame_init)
      as (_ & _ & Hns).
    destruct (Hns 2 [] eq_refl) as (_ & Hinit & _).
    apply Hinit.
    + reflexivity.
    + reflexivity.
    + reflexivity.
    + reflexivity.
    + by eexists.
    + vm_compute. reflexivity.
  - apply C8_DiagonalLinear_call_shape. reflexivity.
Defined.

(** Two inputs that are not scalars and are refused with a ValueError:
    an integer input at init, where the default weight initializer does
    not accept the dtype, and an input of three coordinates for
    parameters stored for two. *)
Lemma C8_counterexample :
  let x := Tensor [2] [1; 2]%R in
  let x3 := Tensor [3] [1; 2; 3]%R in
  shape x ≠ [] ∧
  DiagonalLinear_call demo_dl x int32 demo_frame_init = Raise ValueError ∧
  shape x3 ≠ [] ∧
  DiagonalLinear_call demo_dl x3 float32 demo_dl_frame = Raise ValueError.
Proof.
  intros x x3. split; [done|]. split; [vm_compute; reflexivity|].
  split; [done|]. vm_compute. reflexivity.
Qed.

Lemma demo_generated_lookup module_name name value :
  demo_generated !! module_name ≫= (.!! name) = Some value →
  module_name = "linear" ∧
  (name = "w" ∧ value = Tensor [2; 1] [1; 2]%R ∨ name = "b" ∧ value = Tensor [1] [3]%R).
Proof.
  unfold demo_generated. intros Hl.
  destruct (decide (module_name = "linear")) as [->|Hm].
  - split; [done|]. rewrite lookup_singleton_eq in Hl. simpl in Hl.
    destruct (decide (name = "w")) as [->|Hw].
    + left. rewrite lookup_insert_eq in Hl. by simplify_eq.
    + rewrite lookup_insert_ne in Hl by done.
      destruct (decide (name = "b")) as [->|Hb].
      * right. rewrite lookup_singleton_eq in Hl. by simplify_eq.
      * by rewrite lookup_singleton_ne in Hl.
  - by rewrite lookup_singleton_ne in Hl.
Qed.

Lemma C2_witness :
  ∃ scaled : Params,
    hk_map scale_fn demo_generated = Ok scaled ∧
    ∀ module_name name,
      match demo_generated !! module_name ≫= (.!! name) with
      | None => scaled !! module_name ≫= (.!! name) = None
      | Some value =>
          if decide (name = "w") then
            ∃ fan_in rest, shape value = fan_in :: rest ∧
              scaled !! module_name ≫= (.!! name) =
                Some (Tensor (shape value)
                        ((λ v, v / sqrt (INR fan_in))%R <$> data value))
          else scaled !! module_name ≫= (.!! name) = Some value
      end.
Proof.
  apply C2_scale_fn_scales_weights_only.
  - intros m n v (_ & [[_ ->]|[_ ->]])%demo_generated_lookup; reflexivity.
  - intros m v (_ & [[_ ->]|[[=] _]])%demo_generated_lookup. simpl. discriminate.
Defined.

Lemma demo_pm_whole_new :
  PriorMLPIndependentLayers_new (H:=demo_rng) [1; 1] 1 1 1 0
    "prior_independent_layers" demo_frame_init
  = Ok (demo_pm_whole, run_frame demo_pm_whole_run).
Proof. vm_compute. reflexivity. Qed.

Lemma demo_pm_split_new :
  PriorMLPIndependentLayers_new (H:=demo_rng) [1; 1] 3 1 1 0
    "prior_independent_layers" demo_frame_init
  = Ok (demo_pm_split, run_frame demo_pm_split_run).
Proof. vm_compute. reflexivity. Qed.

Lemma C10_witness :
  (1 < length [1; 1] →
     length (pm_layers demo_pm_whole) = length [1; 1] ∧
     Forall (λ layer, hl_index_dim_per_layer layer = 1) (pm_layers demo_pm_whole) ∧
     ∀ x z,
       index_layers_of demo_pm_whole z = Ok (replicate (length [1; 1]) z) ∧
       ∀ fr0, PriorMLPIndependentLayers_call demo_pm_whole x z fr0 =
                forward_with (length [1; 1]) 0 ((., z) <$> pm_layers demo_pm_whole) x fr0) ∧
  (¬ 1 < length [1; 1] →
     ∀ z, index_layers_of demo_pm_whole z = array_split z (length [1; 1])).
Proof.
  apply (C10_whole_index_for_every_layer [1; 1] 1 1 1 0 "prior_independent_layers"
           demo_frame_init demo_pm_whole (run_frame demo_pm_whole_run)).
  vm_compute. reflexivity.
Defined.

Lemma C4_witness :
  let sizes := section_sizes 3 (length [1; 1]) in
  pm_layers_indices demo_pm_split = chunks (arange 3) 0 sizes ∧
  layers_indices_disjoint demo_pm_split ∧
  length (pm_layers demo_pm_split) = length [1; 1] ∧
  ∀ z, shape z = [3] → wf z →
    ∃ pieces,
      index_layers_of demo_pm_split z = Ok pieces ∧
      pieces = chunks z 0 sizes ∧
      length pieces = length [1; 1] ∧
      concat (data <$> pieces) = data z ∧
      Forall2 (λ layer piece, shape piece = [hl_index_dim_per_layer layer])
        (pm_layers demo_pm_split) pieces ∧
      ∀ x fr0, PriorMLPIndependentLayers_call demo_pm_split x z fr0 =
                 forward_with (length [1; 1]) 0 (zip (pm_layers demo_pm_split) pieces) x fr0.
Proof.
  apply (C4_disjoint_slices_when_split [1; 1] 3 1 1 0 "prior_independent_layers"
           demo_frame_init demo_pm_split (run_frame demo_pm_split_run)).
  - vm_compute. reflexivity.
  - simpl. lia.
Defined.

(** With one index dimension and two layers both layers are associated
    with coordinate 0 and both receive the whole index. *)
Lemma C4_counterexample :
  PriorMLPIndependentLayers_new (H:=demo_rng) [1; 1] 1 1 1 0
    "prior_independent_layers" demo_frame_init
  = Ok (demo_pm_whole, run_frame demo_pm_whole_run) ∧
  ¬ layers_indices_disjoint demo_pm_whole ∧
  index_layers_of demo_pm_whole (Tensor [1] [5%R])
  = Ok [Tensor [1] [5%R]; Tensor [1] [5%R]].
Proof.
  split; [vm_compute; reflexivity|]. split.
  - intros Hd.
    apply (Hd 0 1 (arange 1) (arange 1) (INR 0)).
    + lia.
    + vm_compute. reflexivity.
    + vm_compute. reflexivity.
    + simpl. apply list_elem_of_here.
    + simpl. apply list_elem_of_here.
  - vm_compute. reflexivity.
Qed.

Lemma demo_base_init : tr_init demo_base (PRNGKey 0) demo_dummy = Ok demo_bp.
Proof. vm_compute. reflexivity. Qed.

Lemma demo_hypermodel_module :
  hypermodel_module demo_base demo_dummy (λ x, mret x) false true true = Ok demo_ctor.
Proof. unfold hypermodel_module. by rewrite demo_base_init. Qed.

Lemma demo_hyper_run_ok :
  demo_ctor demo_dummy demo_index demo_frame_init
  = Ok (demo_out, run_frame demo_hyper_run).
Proof. vm_compute. reflexivity. Qed.

Lemma C1_witness :
  ∃ generated_params generated_params_scaled,
    generated_params_fn (λ x, mret x) false
      (base_shapes_of demo_bp) (base_shapes_flat_of demo_bp) demo_index demo_frame_init
      = Ok (generated_params, run_frame demo_hyper_run) ∧
    same_shapes generated_params demo_bp ∧
    same_shapes generated_params_scaled demo_bp ∧
    tr_apply demo_base generated_params_scaled demo_dummy
      = Ok (parse_net_output demo_out).
Proof.
  destruct (C1_generated_params_match_base demo_base demo_dummy (λ x, mret x)
              false true true demo_ctor demo_hypermodel_module)
    as (bp & Hbp & Hall).
  rewrite demo_base_init in Hbp. injection Hbp as <-.
  apply (Hall demo_dummy demo_index demo_frame_init demo_out (run_frame demo_hyper_run)).
  vm_compute. reflexivity.
Defined.

Lemma demo_hyper_run2_ok :
  demo_ctor demo_inputs demo_index demo_frame_init
  = Ok (run_value (Plain (scalar 0)) demo_hyper_run2, run_frame demo_hyper_run2).
Proof. vm_compute. reflexivity. Qed.

Lemma C6_witness :
  (∀ init',
     demo_ctor = hyper_fn (mkTransformed init' (tr_apply demo_base))
                   (λ x, mret x) false true true
                   (base_shapes_of demo_bp) (base_shapes_flat_of demo_bp)) ∧
  ∃ generated_params,
    generated_params_fn (λ x, mret x) false
      (base_shapes_of demo_bp) (base_shapes_flat_of demo_bp) demo_index demo_frame_init
      = Ok (generated_params, run_frame demo_hyper_run2) ∧
    tree_map shape generated_params = base_shapes_of demo_bp.
Proof.
  destruct (C6_base_shapes_fixed_at_construction demo_base demo_dummy (λ x, mret x)
              false true true demo_ctor demo_hypermodel_module)
    as (bp & Hbp & Hclosed & Hall).
  rewrite demo_base_init in Hbp. injection Hbp as <-. split; [exact Hclosed|].
  apply (Hall demo_inputs demo_index demo_frame_init _ _ demo_hyper_run2_ok).
Defined.

Lemma demo_MLPHypermodel :
  MLPHypermodel demo_base demo_dummy demo_indexer None true true None None
  = Ok demo_enn.
Proof.
  unfold MLPHypermodel, hypermodel_module. by rewrite demo_base_init.
Qed.



Lemma demo_prior_init :
  init demo_enn (PRNGKey 0) demo_dummy (indexer demo_enn (PRNGKey 0))
  = Ok demo_prior_params.
Proof. vm_compute. reflexivity. Qed.

Lemma demo_net1_ok :
  MLPHypermodelWithHypermodelPrior [2] 1 demo_dummy demo_indexer [2]
    None None None None true 0 true = Ok demo_net1.
Proof.
  unfold MLPHypermodelWithHypermodelPrior.
  change (hk_transform (MLP_net [2] None None)) with demo_base.
  rewrite demo_MLPHypermodel. cbn [mbind result_bind].
  unfold convert_enn_to_prior_fn. rewrite demo_prior_init. reflexivity.
Qed.

Lemma demo_base2_init : tr_init demo_base2 (PRNGKey 0) demo_dummy = Ok demo_bp2.
Proof. vm_compute. reflexivity. Qed.

Lemma demo_MLPHypermodel2 :
  MLPHypermodel demo_base2 demo_dummy demo_indexer None true true None None
  = Ok demo_enn2.
Proof.
  unfold MLPHypermodel, hypermodel_module. by rewrite demo_base2_init.
Qed.

Lemma demo_prior_init2 :
  hk_init (demo_prior_net demo_dummy demo_index) (PRNGSequence_next 0)
  = Ok demo_prior_params2.
Proof. vm_compute. reflexivity. Qed.

Lemma demo_net2_ok :
  MLPHypermodelPriorIndependentLayers [2] 1 demo_dummy demo_indexer [2]
    None None None true 1 1 0 0 true None = Ok demo_net2.
Proof.
  unfold MLPHypermodelPriorIndependentLayers.
  change (hk_transform (base_net [2] None None None)) with demo_base2.
  change (demo_indexer (PRNGSequence_next 0)) with demo_index.
  cbn [shape demo_index].
  change (prior_net [2] 2 1 1 0 None) with demo_prior_net.
  rewrite demo_prior_init2. cbn [mbind result_bind].
  rewrite demo_MLPHypermodel2. reflexivity.
Qed.

Lemma C3_witness :
  (∃ enn_wo_prior prior_enn prior_params,
     MLPHypermodel (hk_transform (MLP_net [2] None None))
       demo_dummy demo_indexer None true true None None = Ok enn_wo_prior ∧
     MLPHypermodel (hk_transform (MLP_net [2] None None))
       demo_dummy demo_indexer None true true None None = Ok prior_enn ∧
     additive_prior demo_net1 enn_wo_prior
       (λ x z, parse_net_output <$> apply prior_enn prior_params x z) 1) ∧
  (∃ enn_wo_prior index_dim prior_params,
     MLPHypermodel (hk_transform (base_net [2] None None None))
       demo_dummy demo_indexer None true true None None = Ok enn_wo_prior ∧
     additive_prior demo_net2 enn_wo_prior
       (λ x z, hk_apply (prior_net [2] index_dim 1 1 0 None x z) prior_params) 1).
Proof.
  split.
  - apply (proj1 C3_apply_adds_scaled_prior [2] 1%R demo_dummy demo_indexer [2]
             None None None None true 0%Z true demo_net1).
    exact demo_net1_ok.
  - apply (proj2 C3_apply_adds_scaled_prior [2] 1%R demo_dummy demo_indexer [2]
             None None None true 1%R 1%R 0%R 0%Z true None demo_net2).
    exact demo_net2_ok.
Defined.

Lemma C5_witness :
  (∃ enn_wo_prior prior_enn prior_params,
     MLPHypermodel (hk_transform (MLP_net [2] None None))
       demo_dummy demo_indexer None true true None None = Ok enn_wo_prior ∧
     MLPHypermodel (hk_transform (MLP_net [2] None None))
       demo_dummy demo_indexer None true true None None = Ok prior_enn ∧
     init prior_enn (PRNGKey 0) demo_dummy (indexer prior_enn (PRNGKey 0))
       = Ok prior_params ∧
     with_frozen_prior demo_net1 enn_wo_prior
       (λ x z, parse_net_output <$> apply prior_enn prior_params x z) 1) ∧
  (∃ enn_wo_prior index_dim prior_params,
     MLPHypermodel (hk_transform (base_net [2] None None None))
       demo_dummy demo_indexer None true true None None = Ok enn_wo_prior ∧
     shape (demo_indexer (PRNGSequence_next 0)) = [index_dim] ∧
     hk_init (prior_net [2] index_dim 1 1 0 None
                demo_dummy (demo_indexer (PRNGSequence_next 0)))
             (PRNGSequence_next 0) = Ok prior_params ∧
     with_frozen_prior demo_net2 enn_wo_prior
       (λ x z, hk_apply (prior_net [2] index_dim 1 1 0 None x z) prior_params) 1).
Proof.
  split.
  - apply (proj1 C5_prior_parameters_frozen [2] 1%R demo_dummy demo_indexer [2]
             None None None None true 0%Z true demo_net1).
    exact demo_net1_ok.
  - apply (proj2 C5_prior_parameters_frozen [2] 1%R demo_dummy demo_indexer [2]
             None None None true 1%R 1%R 0%R 0%Z true None demo_net2).
    exact demo_net2_ok.
Defined.

(** The composed networks run: one call of each apply function. *)
Lemma demo_net1_apply_ok :
  is_ok (apply demo_net1 demo_prior_params demo_inputs demo_index).
Proof. vm_compute. exact I. Qed.

Lemma demo_net2_apply_ok :
  is_ok (apply demo_net2 demo_prior_params demo_inputs demo_index).
Proof. vm_compute. exact I. Qed.

(** ** The further properties at concrete inputs *)

Lemma X2_witness :
  let dims := hl_index_dim_per_layer <$> pm_layers demo_pm_split in
  length dims = length [1; 1] ∧
  sum_nat dims = 3 ∧
  Forall (λ s, 1 ≤ s) dims ∧
  ∀ s1 s2, s1 ∈ dims → s2 ∈ dims → s1 ≤ S s2.
Proof.
  apply (X2_split_is_balanced [1; 1] 3 1 1 0 "prior_independent_layers"
           demo_frame_init demo_pm_split (run_frame demo_pm_split_run)).
  - vm_compute. reflexivity.
  - simpl. lia.
Defined.

Lemma X3_witness :
  (length (shape demo_inputs) ≠ 2 →
   HyperLinear_call demo_hl demo_inputs demo_index demo_hl_frame = Raise ValueError) ∧
  (3 = 0 → (∃ batch, shape demo_inputs = [batch; 3]) →
     HyperLinear_call demo_hl demo_inputs demo_index demo_hl_frame
     = Raise ZeroDivisionError) ∧
  ((∃ out fr', HyperLinear_call demo_hl demo_inputs demo_index demo_hl_frame
               = Ok (out, fr')) ↔
   3 ≠ 0 ∧ (∃ batch, shape demo_inputs = [batch; 3]) ∧
   ∃ i', shape demo_index = [i'] ∧
         (i' = hl_index_dim_per_layer demo_hl ∨ i' = 1
          ∨ hl_index_dim_per_layer demo_hl = 1)) ∧
  (∀ out fr', HyperLinear_call demo_hl demo_inputs demo_index demo_hl_frame
                = Ok (out, fr') →
     fr' = demo_hl_frame ∧
     ∃ batch, shape demo_inputs = [batch; 3] ∧
              shape out = [batch; hl_output_size demo_hl]).
Proof.
  apply (X3_HyperLinear_shapes demo_hl demo_inputs demo_index demo_hl_frame
           (Tensor [1; 3; 2] [1; 2; 3; 4; 5; 6]%R) (Tensor [1; 2] [1; 1]%R) 3).
  - vm_compute. reflexivity.
  - reflexivity.
  - vm_compute. reflexivity.
  - reflexivity.
Defined.

Lemma demo_hypermodel_module_diag :
  hypermodel_module demo_base demo_dummy (λ x, mret x) true true true
  = Ok demo_ctor_diag.
Proof. unfold hypermodel_module. by rewrite demo_base_init. Qed.

Lemma X6_witness :
  demo_ctor_diag demo_dummy demo_index demo_frame_init = Raise AssertionError.
Proof.
  apply (X6_diagonal_rejects_other_index_sizes demo_base demo_dummy (λ x, mret x)
           true true demo_ctor_diag demo_bp).
  - exact demo_hypermodel_module_diag.
  - exact demo_base_init.
  - intros E. vm_compute in E. discriminate E.
Defined.

Lemma X7_witness :
  ∃ dl fr1 hyper_index,
    DiagonalLinear_new true None None None demo_frame_init = Ok (dl, fr1) ∧
    DiagonalLinear_call dl demo_index8 float32 fr1
      = Ok (hyper_index, run_frame demo_diag_run) ∧
    shape hyper_index = shape demo_index8 ∧
    same_shapes (run_value ∅ demo_diag_run) demo_bp ∧
    concat (data <$> tree_leaves (run_value ∅ demo_diag_run)) = data hyper_index.
Proof.
  apply (X7_diagonal_params_are_the_scaled_index (λ x, mret x) demo_bp demo_index8
           demo_frame_init).
  vm_compute. reflexivity.
Defined.

Lemma X8_witness :
  ∃ batch hidden o,
    shape demo_inputs = [batch; hidden] ∧ last [1; 1] = Some o ∧
    shape (run_value (scalar 0) demo_pm_call_run) = [batch; o].
Proof.
  apply (X8_prior_output_shape [1; 1] 3 1 1 0 "prior_independent_layers"
           demo_frame_init demo_pm_split (run_frame demo_pm_split_run)
           demo_inputs demo_z3 demo_frame_init
           (run_value (scalar 0) demo_pm_call_run) (run_frame demo_pm_call_run)).
  - vm_compute. reflexivity.
  - vm_compute. reflexivity.
Defined.

Lemma X9_witness :
  (∃ index_dim, shape (demo_indexer (PRNGSequence_next 0)) = [index_dim]) ∧
  [2] ≠ [] ∧
  ∃ batch hidden, shape demo_dummy = [batch; hidden].
Proof.
  apply (X9_prior_layers_network_requirements [2] 1%R demo_dummy demo_indexer [2]
           None None None true 1%R 1%R 0%R 0%Z true None demo_net2).
  exact demo_net2_ok.
Defined.
